(** * Tabular pipelines (main.ipynb): a shallow embedding of the three
    [process] variants of the notebook and the properties they satisfy.

    The notebook filters a delimited file with pandas in three ways:
    a single pass over the whole file ([process_single_pass]), a sequential
    loop over chunks of [chunksize] rows ([process_chunked]), and a pool of
    worker processes fed one chunk per task, the workers appending to the
    same destination under the lock [l] ([step], [run]).

    What pandas does is modelled at the level the notebook uses it:
    - a data frame is the list of its rows, in index order;
    - [df[mask]] keeps the rows whose mask entry is true, in order;
    - [read_csv] coerces each data line under the declared dtypes and
      raises when a line does not coerce ([ValueError], or [OverflowError]
      for an integer too large to be read); a line that coerces gives the
      same row in every frame, which is so on files whose [col_0] is text
      and whose [col_1] fields are dates ([plain_row]);
    - [read_csv(chunksize=B)] is an iterator over frames of [B] lines;
    - [to_csv(mode="a", header=False, index=False)] appends one line per
      row to the destination; the line of a row is a function of the row
      alone ([format_row], kept abstract), which is so when the frames
      compared are the same or hold [plain_row]s only;
    - a [to_csv] call can fail with [OSError] after some of its bytes;
    - printing and timing are left out. *)

From Stdlib Require Import ZArith Strings.String Strings.Byte Floats Lia.
From stdpp Require Import base list gmap strings pretty.

Open Scope Z_scope.
Open Scope nat_scope.

(** ** Rows and data frames *)

(** A [datetime64[ns]] cell: nanoseconds since the epoch, or [NaT]. *)
Inductive datetime64 : Type :=
| NaT
| Timestamp (ns : Z).

(** A numeric cell of one of the columns the filters do not read. *)
Inductive cell : Type :=
| Int32 (z : Z)
| Float32 (x : float).

(** One row of the frame after [read_csv(dtype=dtypes, parse_dates=["col_1"])]:
    [col_0] is text, [col_1] a timestamp, [col_2 .. col_51] are int32 and
    [col_52 .. col_101] float32.  The four columns the filters read are
    fields of their own; [others] holds the remaining ones in column order. *)
Record Row : Type := mkRow {
  col_0 : string;
  col_1 : datetime64;
  col_2 : Z;
  col_3 : Z;
  col_100 : float;
  others : list cell
}.

Definition DataFrame : Type := list Row.

(** A row-level predicate: one entry of a boolean mask. *)
Definition Predicate : Type := Row -> bool.

(** [df[mask]]: boolean-mask selection. *)
Definition select (mask : Predicate) (df : DataFrame) : DataFrame :=
  List.filter mask df.

(** ** The filtration of the notebook *)

(** [Timestamp("1990-12-24")] in nanoseconds: 7662 days after 1970-01-01. *)
Definition cutoff : Z := (7662 * 86400 * 1000000000)%Z.

(** [df["col_1"] <= "1990-12-24"] on a frame whose [col_1] was parsed as
    dates; a comparison with [NaT] is false. *)
Definition le_cutoff : Predicate := fun r =>
  match col_1 r with
  | NaT => false
  | Timestamp ns => (ns <=? cutoff)%Z
  end.

(** [df["col_2"] > 0] *)
Definition gt_0 : Predicate := fun r => (0 <? col_2 r)%Z.

(** [df["col_3"] > 50] *)
Definition gt_50 : Predicate := fun r => (50 <? col_3 r)%Z.

(** [df["col_100"] < 0.5]; IEEE comparison, false on NaN. *)
Definition lt_05 : Predicate := fun r => PrimFloat.ltb (col_100 r) 0.5%float.

(** The four chained selections, shared by the three [process] variants. *)
Definition filtration (chunk : DataFrame) : DataFrame :=
  let before_date := select le_cutoff chunk in
  let col2_gt_0 := select gt_0 before_date in
  let col3_gt_50 := select gt_50 col2_gt_0 in
  let col_100_lt_05 := select lt_05 col3_gt_50 in
  col_100_lt_05.

(** The predicates of [filtration] in their declared order. *)
Definition chain : list Predicate := [le_cutoff; gt_0; gt_50; lt_05].

(** A chain of selections: each predicate is applied to the survivors of
    the ones before it. *)
Fixpoint apply_chain (ps : list Predicate) (batch : DataFrame) : DataFrame :=
  match ps with
  | [] => batch
  | p :: ps' => apply_chain ps' (select p batch)
  end.

(** Per-row evaluation that stops at the first failing predicate. *)
Fixpoint passes (ps : list Predicate) (r : Row) : bool :=
  match ps with
  | [] => true
  | p :: ps' => if p r then passes ps' r else false
  end.

(** Per-row evaluation of every predicate, the outcomes conjoined after. *)
Definition passes_full (ps : list Predicate) (r : Row) : bool :=
  fold_left andb (map (fun p : Predicate => p r) ps) true.

(** The row-level test of the notebook's chain. *)
Definition keep : Predicate := passes chain.

(** ** The source file and [read_csv] *)

(** A data line of the source file, as [read_csv] sees it: either it
    reads as a row (its fields in the columns with a declared dtype are
    literals of that dtype, and its [col_1] field is a date), or the field
    [text] of a column with a declared dtype is not a literal of that
    dtype, or it is an integer too large to be read. *)
Inductive line : Type :=
| Parsed (r : Row)
| Malformed (column text : string)
| OutOfRange (column text : string).

Inductive exn : Type :=
| ValueError
| OverflowError
| OSError.

(** Coercion of a block of lines: pandas raises at the first field that
    does not convert, [ValueError] for a field that is not a literal of
    its dtype and [OverflowError] for an integer too large to be read, and
    no frame is returned. *)
Fixpoint coerce (ls : list line) : exn + DataFrame :=
  match ls with
  | [] => inr []
  | Parsed r :: ls' =>
      match coerce ls' with
      | inr df => inr (r :: df)
      | inl e => inl e
      end
  | Malformed _ _ :: _ => inl ValueError
  | OutOfRange _ _ :: _ => inl OverflowError
  end.


(** [pd.read_csv(path, header=0, dtype=dtypes, parse_dates=["col_1"])] *)
Definition read_csv (ls : list line) : exn + DataFrame := coerce ls.

(** The iterator [read_csv(..., chunksize=B)] returns: the lines not read
    yet, and whether no chunk has been produced so far. *)
Record TextFileReader : Type := mkReader {
  chunksize : nat;
  pending : list line;
  first_chunk : bool
}.

Inductive next_result : Type :=
| Yield (chunk : DataFrame) (rd : TextFileReader)
| StopIteration
| Raise (e : exn).

(** [next(iterator)]: the next [chunksize] lines, coerced.  At the end of
    the data the iterator stops; only a file without data lines yields one
    empty frame first. *)
Definition next (rd : TextFileReader) : next_result :=
  match pending rd with
  | [] =>
      if first_chunk rd
      then Yield [] (mkReader (chunksize rd) [] false)
      else StopIteration
  | _ :: _ =>
      match coerce (take (chunksize rd) (pending rd)) with
      | inl e => Raise e
      | inr chunk =>
          Yield chunk (mkReader (chunksize rd) (drop (chunksize rd) (pending rd)) false)
      end
  end.

(** [pd.read_csv(path, ..., chunksize=B)]: a chunk size below 1 is refused. *)
Definition read_csv_chunked (B : nat) (ls : list line) : exn + TextFileReader :=
  match B with
  | 0 => inl ValueError
  | S _ => inr (mkReader B ls true)
  end.

Definition processes : nat := 3.

(** How an iteration over the reader ends. *)
Inductive ending : Type :=
| Exhausted
| Failed (e : exn)
| Unfinished.

(** The chunks a reader yields, in order, and how the iteration ends. *)
Fixpoint drain (fuel : nat) (rd : TextFileReader) : list DataFrame * ending :=
  match fuel with
  | 0 => ([], Unfinished)
  | S fuel' =>
      match next rd with
      | Yield chunk rd' =>
          let (chunks, e) := drain fuel' rd' in (chunk :: chunks, e)
      | StopIteration => ([], Exhausted)
      | Raise e => ([], Failed e)
      end
  end.

(** Calls of [next] that exhaust any reader with a chunk size of at least 1. *)
Definition fuel_of (rd : TextFileReader) : nat := S (S (length (pending rd))).

Definition batches (rd : TextFileReader) : list DataFrame := fst (drain (fuel_of rd) rd).
Definition batches_end (rd : TextFileReader) : ending := snd (drain (fuel_of rd) rd).

(** ** The destination file *)

(** The destination: its bytes, and for each coming [to_csv] call whether
    it succeeds ([None]) or raises [OSError] after at most [n] bytes
    ([Some n]); calls beyond the list succeed. *)
Record Sink : Type := mkSink {
  content : list byte;
  faults : list (option nat)
}.

Definition pop_fault (fs : Sink) : option nat * list (option nat) :=
  match faults fs with
  | [] => (None, [])
  | f :: fl => (f, fl)
  end.

(** A fresh, empty destination on which no write fails. *)
Definition fresh : Sink := mkSink [] [].

(** How a call of [process] ends. *)
Inductive outcome : Type :=
| Returned
| Raised (e : exn)
| OutOfFuel.

(** ** Rows used in the examples *)

Definition newline : byte := x0a.

(** A line format for the examples: the first column and a newline. *)
Definition first_column_line (r : Row) : list byte :=
  list_byte_of_string (col_0 r) ++ [newline].

(** 1985-01-01, 5479 days after the epoch. *)
Definition early : datetime64 := Timestamp (5479 * 86400 * 1000000000)%Z.
(** 1995-01-01, 9131 days after the epoch. *)
Definition late : datetime64 := Timestamp (9131 * 86400 * 1000000000)%Z.

Definition row_a : Row := mkRow "TCGA_1" early 3 60 0.25%float [].
Definition row_b : Row := mkRow "TCGA_2" early 3 10 0.25%float [].
Definition row_c : Row := mkRow "TCGA_3" early 7 51 0.125%float [].
Definition row_d : Row := mkRow "TCGA_4" late 7 51 0.125%float [].
Definition row_e : Row := mkRow "TCGA_5" early 1 99 0.75%float [].
Definition row_f : Row := mkRow "TCGA_6" early 2 77 0.375%float [].

Definition bad_line : line := Malformed "col_2" "abc".


Section Pipeline.

(** The line [to_csv] writes for a row (fields joined by the separator,
    then a newline). *)
Variable format_row : Row -> list byte.

(** The bytes of a frame written without header and index. *)
Definition render (df : DataFrame) : list byte := concat (map format_row df).

(** [df.to_csv(path, sep=",", mode="a", header=False, index=False, columns=cols)]:
    the bytes are appended to what the destination holds. *)
Definition to_csv (df : DataFrame) (fs : Sink) : Sink * option exn :=
  match pop_fault fs with
  | (None, fl) => (mkSink (content fs ++ render df) fl, None)
  | (Some n, fl) => (mkSink (content fs ++ take n (render df)) fl, Some OSError)
  end.

(** ** Single pass: [process()] of the first variant *)
Definition process_single_pass (ls : list line) (fs : Sink) : Sink * outcome :=
  match read_csv ls with
  | inl e => (fs, Raised e)
  | inr df =>
      match to_csv (filtration df) fs with
      | (fs', Some e) => (fs', Raised e)
      | (fs', None) => (fs', Returned)
      end
  end.

(** ** Sequential chunks: [process()] of the second variant *)

(** [for i, chunk in enumerate(iterator): ...] *)
Fixpoint loop (fuel : nat) (rd : TextFileReader) (fs : Sink) : Sink * outcome :=
  match fuel with
  | 0 => (fs, OutOfFuel)
  | S fuel' =>
      match next rd with
      | StopIteration => (fs, Returned)
      | Raise e => (fs, Raised e)
      | Yield chunk rd' =>
          match to_csv (filtration chunk) fs with
          | (fs', Some e) => (fs', Raised e)
          | (fs', None) => loop fuel' rd' fs'
          end
      end
  end.

Definition process_chunked (B : nat) (ls : list line) (fs : Sink) : Sink * outcome :=
  match read_csv_chunked B ls with
  | inl e => (fs, Raised e)
  | inr rd => loop (fuel_of rd) rd fs
  end.

(** The frames written one after the other, up to the first failing write. *)
Fixpoint write_all (dfs : list DataFrame) (fs : Sink) : Sink * option exn :=
  match dfs with
  | [] => (fs, None)
  | df :: dfs' =>
      match to_csv (filtration df) fs with
      | (fs', Some e) => (fs', Some e)
      | (fs', None) => write_all dfs' fs'
      end
  end.

(** The bytes of the filtered chunks, chunk after chunk. *)
Definition render_chunks (dfs : list DataFrame) : list byte :=
  concat (map (fun df => render (filtration df)) dfs).

(** How the loop over the iterator ends when no write fails. *)
Definition outcome_of (e : ending) : outcome :=
  match e with
  | Exhausted => Returned
  | Failed ex => Raised ex
  | Unfinished => OutOfFuel
  end.

(** ** Worker pool: the third variant *)

(** A worker process of the pool: idle, inside [process(chunk, i)] before
    [l.acquire()] returns, or inside [to_csv] holding [l], with the bytes
    still to write and the fault of this call. *)
Inductive worker : Type :=
| Idle
| Running (chunk : DataFrame) (i : nat)
| Writing (chunk : DataFrame) (i : nat) (rest : list byte) (fault : option nat).

(** The main process: in the [for] loop over the iterator, past
    [pool.close()] waiting in [pool.join()], or stopped by an exception of
    the iterator. *)
Inductive main_state : Type :=
| Submitting (rd : TextFileReader) (i : nat)
| Joining
| Crashed (e : exn).

(** The pool: the main process, the task queue of [apply_async], the
    worker processes, the lock [l] and the destination. *)
Record Pool : Type := mkPool {
  main : main_state;
  tasks : list (DataFrame * nat);
  workers : list worker;
  lock : bool;
  sink : Sink
}.

(** The atomic actions of the processes; [k] is the index of a worker. *)
Inductive event : Type :=
| EvSubmit
| EvTake (k : nat)
| EvAcquire (k : nat)
| EvWrite (k : nat)
| EvRaise (k : nat)
| EvRelease (k : nat).

Definition set_worker (k : nat) (w : worker) (s : Pool) : Pool :=
  mkPool (main s) (tasks s) (<[k := w]> (workers s)) (lock s) (sink s).

(** One action.  [None] when the action is not enabled in the state.
    - [EvSubmit]: the main process asks the iterator for a chunk and hands
      it to [apply_async], which queues it and returns at once; at the end
      of the iterator it goes on to [close] and [join].
    - [EvTake k]: idle worker [k] takes the oldest task.
    - [EvAcquire k]: worker [k] has filtered its chunk, [l.acquire()]
      returns and [to_csv] opens the destination.
    - [EvWrite k]: [to_csv] of worker [k] appends one byte.
    - [EvRaise k]: [to_csv] of worker [k] raises; [l.release()] is not
      reached, the pool stores the exception in the result of the task,
      which the notebook never reads, and the worker is free again.
    - [EvRelease k]: [to_csv] of worker [k] has returned, [l.release()]. *)
Definition step (ev : event) (s : Pool) : option Pool :=
  match ev with
  | EvSubmit =>
      match main s with
      | Submitting rd i =>
          match next rd with
          | Yield chunk rd' =>
              Some (mkPool (Submitting rd' (S i)) (tasks s ++ [(chunk, i)])
                           (workers s) (lock s) (sink s))
          | StopIteration => Some (mkPool Joining (tasks s) (workers s) (lock s) (sink s))
          | Raise e => Some (mkPool (Crashed e) (tasks s) (workers s) (lock s) (sink s))
          end
      | _ => None
      end
  | EvTake k =>
      match workers s !! k, tasks s with
      | Some Idle, (chunk, i) :: ts =>
          Some (mkPool (main s) ts (<[k := Running chunk i]> (workers s)) (lock s) (sink s))
      | _, _ => None
      end
  | EvAcquire k =>
      match workers s !! k with
      | Some (Running chunk i) =>
          if lock s then None
          else
            let (f, fl) := pop_fault (sink s) in
            Some (mkPool (main s) (tasks s)
                         (<[k := Writing chunk i (render (filtration chunk)) f]> (workers s))
                         true (mkSink (content (sink s)) fl))
      | _ => None
      end
  | EvWrite k =>
      match workers s !! k with
      | Some (Writing chunk i (b :: rest) None) =>
          Some (mkPool (main s) (tasks s)
                       (<[k := Writing chunk i rest None]> (workers s))
                       (lock s) (mkSink (content (sink s) ++ [b]) (faults (sink s))))
      | Some (Writing chunk i (b :: rest) (Some (S n))) =>
          Some (mkPool (main s) (tasks s)
                       (<[k := Writing chunk i rest (Some n)]> (workers s))
                       (lock s) (mkSink (content (sink s) ++ [b]) (faults (sink s))))
      | _ => None
      end
  | EvRaise k =>
      match workers s !! k with
      | Some (Writing _ _ _ (Some 0)) => Some (set_worker k Idle s)
      | Some (Writing _ _ [] (Some _)) => Some (set_worker k Idle s)
      | _ => None
      end
  | EvRelease k =>
      match workers s !! k with
      | Some (Writing _ _ [] None) =>
          Some (mkPool (main s) (tasks s) (<[k := Idle]> (workers s)) false (sink s))
      | _ => None
      end
  end.

(** The state a schedule of actions leads to, when each is enabled in turn. *)
Fixpoint run (sched : list event) (s : Pool) : option Pool :=
  match sched with
  | [] => Some s
  | ev :: sched' =>
      match step ev s with
      | Some s' => run sched' s'
      | None => None
      end
  end.

(** [pool = Pool(processes=W)], then the iterator is made; a pool of no
    process is refused. *)
Definition start (W B : nat) (ls : list line) (fs : Sink) : exn + Pool :=
  match W with
  | 0 => inl ValueError
  | S _ =>
      match read_csv_chunked B ls with
      | inl e => inl e
      | inr rd => inr (mkPool (Submitting rd 0) [] (replicate W Idle) false fs)
      end
  end.

Definition is_idle (w : worker) : bool :=
  match w with Idle => true | _ => false end.

Definition is_writing (w : worker) : bool :=
  match w with Writing _ _ _ _ => true | _ => false end.

Definition main_done (m : main_state) : bool :=
  match m with Submitting _ _ => false | _ => true end.

(** Nothing is left to do: the main process is out of its loop, the queue
    is empty and every worker is idle. *)
Definition finished (s : Pool) : bool :=
  main_done (main s) && bool_decide (tasks s = []) && forallb is_idle (workers s).

(** The chunks held by the coordinator: queued or in the hands of a worker. *)
Definition in_flight (s : Pool) : nat :=
  length (tasks s) + length (List.filter (fun w => negb (is_idle w)) (workers s)).

(** The number of workers inside [to_csv]. *)
Definition writers (s : Pool) : nat := length (List.filter is_writing (workers s)).

(** The chunk a worker holds, if any. *)
Definition chunk_of (w : worker) : list DataFrame :=
  match w with
  | Idle => []
  | Running chunk _ => [chunk]
  | Writing chunk _ _ _ => [chunk]
  end.

(** The chunks the main process has still to submit. *)
Definition future (m : main_state) : list DataFrame :=
  match m with
  | Submitting rd _ => batches rd
  | _ => []
  end.

(** The chunks not written yet: in the hands of a worker, queued, or
    still to come from the iterator. *)
Definition unwritten (s : Pool) : list DataFrame :=
  concat (map chunk_of (workers s)) ++ map fst (tasks s) ++ future (main s).

(** ** Invariants of the pool *)

(** At most one worker is inside [to_csv], and it holds the lock. *)
Definition exclusive (s : Pool) : Prop :=
  (forall j k wj wk,
      workers s !! j = Some wj -> workers s !! k = Some wk ->
      is_writing wj = true -> is_writing wk = true -> j = k)
  /\ (forall j w, workers s !! j = Some w -> is_writing w = true -> lock s = true).

Definition reader_ok (m : main_state) : Prop :=
  match m with
  | Submitting rd _ => 1 <= chunksize rd
  | _ => True
  end.

Definition no_fault (w : worker) : Prop :=
  match w with
  | Writing _ _ _ (Some _) => False
  | _ => True
  end.

(** [pre] is the part already written of the block of the worker that
    holds the lock; it is empty when the lock is free. *)
Definition progress_of (s : Pool) (pre : list byte) : Prop :=
  if lock s
  then exists k chunk i rest,
         workers s !! k = Some (Writing chunk i rest None)
         /\ pre ++ rest = render (filtration chunk)
  else pre = [].

(** When no write fails: the destination holds what it held at the start
    ([c0]), then the whole blocks of the chunks [done] in the order they
    were written, then the written part of the block in progress; the
    chunks written and those still to write are the batches [all] of the
    iterator. *)
Definition consistent (c0 : list byte) (all : list DataFrame) (s : Pool) : Prop :=
  faults (sink s) = []
  /\ reader_ok (main s)
  /\ Forall no_fault (workers s)
  /\ exists done pre,
       content (sink s) = c0 ++ render_chunks done ++ pre
       /\ done ++ unwritten s ≡ₚ all
       /\ progress_of s pre.

(** The number of actions left in a run on which no write fails. *)
Definition block_cost (chunk : DataFrame) : nat := length (render (filtration chunk)).

Definition worker_cost (w : worker) : nat :=
  match w with
  | Idle => 0
  | Running chunk _ => 2 + block_cost chunk
  | Writing _ _ rest _ => 1 + length rest
  end.

Definition main_cost (m : main_state) : nat :=
  match m with
  | Submitting rd _ => 1 + list_sum (map (fun chunk => 4 + block_cost chunk) (batches rd))
  | _ => 0
  end.

Definition cost (s : Pool) : nat :=
  main_cost (main s)
  + list_sum (map (fun t => 3 + block_cost (fst t)) (tasks s))
  + list_sum (map worker_cost (workers s)).

(** ** Schedules used in the examples *)

(** Two chunks of one row are handed over and taken by workers 0 and 1;
    worker [first] writes its block of [n1] bytes and releases the lock
    before worker [second] writes its block of [n2] bytes. *)
Definition two_writers (first second n1 n2 : nat) : list event :=
  [EvSubmit; EvSubmit; EvSubmit; EvTake 0; EvTake 1; EvAcquire first]
  ++ replicate n1 (EvWrite first)
  ++ [EvRelease first; EvAcquire second]
  ++ replicate n2 (EvWrite second)
  ++ [EvRelease second].

(** Two chunks are handed over and taken; the write of worker 0 raises at
    once, and worker 1 then asks for the lock. *)
Definition failing_writer : list event :=
  [EvSubmit; EvSubmit; EvSubmit; EvTake 0; EvTake 1; EvAcquire 0; EvRaise 0].

(** ** Files read and written row by row *)





(** ** Column names and declared dtypes *)

(** [f"col_{i}"] *)
Definition col_name (i : nat) : string := "col_" +:+ pretty i.

(** [cols = [f"col_{i}" for i in range(ncols+2)]] *)
Definition cols (ncols : nat) : list string := map col_name (seq 0 (ncols + 2)).

Inductive dtype : Type :=
| int32
| float32.

(** [dict(pairs)]: a later pair overwrites an earlier one with the same key. *)
Definition dict {V : Type} (pairs : list (string * V)) : gmap string V :=
  fold_left (fun m kv => <[kv.1 := kv.2]> m) pairs ∅.

(** [dict(zip(names[2:], [np.int32]*k + [np.float32]*k))] *)
Definition dtypes_of (names : list string) (k : nat) : gmap string dtype :=
  dict (zip (drop 2 names) (replicate k int32 ++ replicate k float32)).

(** [nrows, ncols = 3000000, 100] and the [dtypes] of the notebook. *)
Definition ncols : nat := 100.
Definition dtypes : gmap string dtype := dtypes_of (cols ncols) 50.

(** What a column of the generated file holds. *)
Inductive kind : Type :=
| KText
| KDate
| KInt
| KFloat.

(** [np.hstack([string_row, date_row, int_rows, float_rows])], with
    [ncols // 2] integer and [ncols // 2] float columns. *)
Definition layout (n : nat) : list kind :=
  [KText; KDate] ++ replicate (n / 2) KInt ++ replicate (n / 2) KFloat.

(** The dtype that fits a column of the generated file, if it needs one. *)
Definition fitting (c : kind) : option dtype :=
  match c with
  | KInt => Some int32
  | KFloat => Some float32
  | _ => None
  end.

(** ** Further invariants of the pool *)

(** The task a worker holds, if any. *)
Definition task_of (w : worker) : list (DataFrame * nat) :=
  match w with
  | Idle => []
  | Running chunk i => [(chunk, i)]
  | Writing chunk i _ _ => [(chunk, i)]
  end.

(** The number of a task is the position of its chunk among the batches. *)
Definition task_ok (all : list DataFrame) (t : DataFrame * nat) : Prop :=
  all !! t.2 = Some t.1.

(** Every task, queued or held, carries the position of its chunk, and the
    counter of [enumerate] is the number of batches handed over. *)
Definition numbered (all : list DataFrame) (s : Pool) : Prop :=
  Forall (task_ok all) (tasks s)
  /\ Forall (fun w => Forall (task_ok all) (task_of w)) (workers s)
  /\ match main s with
     | Submitting rd i => 1 <= chunksize rd /\ drop i all = batches rd
     | _ => True
     end.

(** The lock is held and no worker is inside [to_csv]. *)
Definition jammed (s : Pool) : Prop :=
  lock s = true
  /\ (forall j w, workers s !! j = Some w -> is_writing w = false).

(** [pre] is the part a worker has written of its block. *)
Definition written_part (w : worker) (pre : list byte) : Prop :=
  match w with
  | Writing chunk _ rest _ => pre ++ rest = render (filtration chunk)
  | _ => pre = []
  end.

(** With a single worker: the destination holds the blocks of the chunks
    [done] and the written part of the block in progress, and [done], the
    chunk of the worker, the queue and the chunks to come are the batches
    in their order. *)
Definition in_order (c0 : list byte) (all : list DataFrame) (s : Pool) : Prop :=
  faults (sink s) = []
  /\ reader_ok (main s)
  /\ exists w done pre,
       workers s = [w]
       /\ no_fault w
       /\ content (sink s) = c0 ++ render_chunks done ++ pre
       /\ done ++ chunk_of w ++ map fst (tasks s) ++ future (main s) = all
       /\ written_part w pre.

(** A schedule for one worker and two chunks of one row, with blocks of
    [n1] and [n2] bytes. *)
Definition one_writer (n1 n2 : nat) : list event :=
  [EvSubmit; EvSubmit; EvSubmit; EvTake 0; EvAcquire 0]
  ++ replicate n1 (EvWrite 0)
  ++ [EvRelease 0; EvTake 0; EvAcquire 0]
  ++ replicate n2 (EvWrite 0)
  ++ [EvRelease 0].
(** ** Filter chain *)

Lemma select_sublist (p : Predicate) (df : DataFrame) : sublist (select p df) df.
Proof.
  unfold select. induction df as [|r df IH]; simpl; [constructor|].
  destruct (p r); [by apply sublist_skip | by apply sublist_cons].
Qed.

Lemma select_select (p q : Predicate) (df : DataFrame) :
  select q (select p df) = select (fun r => if p r then q r else false) df.
Proof.
  unfold select. induction df as [|r df IH]; simpl; [done|].
  destruct (p r); simpl; [destruct (q r)|]; by rewrite ?IH.
Qed.

Lemma select_ext (p q : Predicate) (df : DataFrame) :
  (forall r, p r = q r) -> select p df = select q df.
Proof.
  intros E. unfold select. induction df as [|r df IH]; simpl; [done|].
  by rewrite E, IH.
Qed.

Lemma select_true (df : DataFrame) : select (fun _ => true) df = df.
Proof. unfold select. induction df as [|r df IH]; simpl; [done|]. by rewrite IH. Qed.

Lemma select_app (p : Predicate) (a b : DataFrame) :
  select p (a ++ b) = select p a ++ select p b.
Proof. apply List.filter_app. Qed.

Lemma apply_chain_select (ps : list Predicate) (batch : DataFrame) :
  apply_chain ps batch = select (passes ps) batch.
Proof.
  revert batch. induction ps as [|p ps IH]; intros batch; simpl.
  - by rewrite select_true.
  - by rewrite IH, select_select.
Qed.

Lemma fold_andb_false (bs : list bool) : fold_left andb bs false = false.
Proof. induction bs as [|b bs IH]; cbn; done. Qed.

Lemma passes_full_eq (ps : list Predicate) (r : Row) : passes_full ps r = passes ps r.
Proof.
  unfold passes_full. induction ps as [|p ps IH]; cbn; [done|].
  destruct (p r); [exact IH | apply fold_andb_false].
Qed.

Lemma passes_Forall (ps : list Predicate) (r : Row) :
  passes ps r = true <-> Forall (fun p : Predicate => p r = true) ps.
Proof.
  induction ps as [|p ps IH]; cbn.
  - split; [constructor | done].
  - destruct (p r) eqn:E.
    + rewrite IH. split; [by constructor | by inversion 1].
    + split; [done | inversion 1; congruence].
Qed.

Lemma filtration_keep (chunk : DataFrame) : filtration chunk = select keep chunk.
Proof. unfold keep. rewrite <- apply_chain_select. reflexivity. Qed.

Lemma filtration_app (a b : DataFrame) :
  filtration (a ++ b) = filtration a ++ filtration b.
Proof. rewrite !filtration_keep. apply select_app. Qed.

(** C1. For every batch and every ordered chain of predicates: the chain
    of selections keeps exactly the rows that pass every predicate, keeps
    them in the order of the batch, and equals both the per-row
    short-circuit selection and the selection that evaluates every
    predicate on every row; the notebook's [filtration] is the chain
    [le_cutoff; gt_0; gt_50; lt_05]. *)
Theorem filter_chain_stable (ps : list Predicate) (batch : DataFrame) :
  apply_chain ps batch = select (passes ps) batch
  /\ select (passes ps) batch = select (passes_full ps) batch
  /\ (forall r, In r (apply_chain ps batch) <->
                In r batch /\ Forall (fun p : Predicate => p r = true) ps)
  /\ sublist (apply_chain ps batch) batch
  /\ filtration batch = apply_chain chain batch.
Proof.
  split; [apply apply_chain_select|].
  split; [apply select_ext; intros r; symmetry; apply passes_full_eq|].
  split; [|split].
  - intros r. rewrite apply_chain_select. unfold select.
    rewrite List.filter_In, passes_Forall. reflexivity.
  - rewrite apply_chain_select. apply select_sublist.
  - reflexivity.
Qed.

(** ** The chunk iterator *)

Lemma coerce_parsed (rows : DataFrame) : coerce (map Parsed rows) = inr rows.
Proof. induction rows as [|r rows IH]; simpl; [done|]. by rewrite IH. Qed.


Lemma next_chunksize (rd rd' : TextFileReader) (chunk : DataFrame) :
  next rd = Yield chunk rd' -> chunksize rd' = chunksize rd.
Proof.
  unfold next. destruct (pending rd) as [|l ls].
  - destruct (first_chunk rd); [|done]. by intros [= _ <-].
  - destruct (coerce _); [done|]. by intros [= _ <-].
Qed.

Lemma next_pending (rd rd' : TextFileReader) (chunk : DataFrame) :
  1 <= chunksize rd -> next rd = Yield chunk rd' ->
  length (pending rd') <= length (pending rd)
  /\ (pending rd <> [] -> length (pending rd') < length (pending rd))
  /\ first_chunk rd' = false.
Proof.
  intros HB. unfold next. destruct (pending rd) as [|l ls] eqn:E.
  - destruct (first_chunk rd); [|done]. intros [= _ <-]. simpl. split; [lia|]. done.
  - destruct (coerce _); [done|]. intros [= _ <-]. simpl.
    rewrite length_drop. simpl. split; [lia|]. split; [intros _; lia | done].
Qed.

Lemma drain_S (n : nat) (rd : TextFileReader) :
  drain (S n) rd =
  match next rd with
  | Yield chunk rd' => let (chunks, e) := drain n rd' in (chunk :: chunks, e)
  | StopIteration => ([], Exhausted)
  | Raise e => ([], Failed e)
  end.
Proof. reflexivity. Qed.

Lemma drain_finishes (n : nat) (rd : TextFileReader) :
  1 <= chunksize rd ->
  length (pending rd) + 1 + Nat.b2n (first_chunk rd) <= n ->
  snd (drain n rd) <> Unfinished.
Proof.
  revert rd. induction n as [|n IH]; intros rd HB Hn; [lia|].
  rewrite drain_S. destruct (next rd) as [chunk rd'| |e] eqn:E; simpl; try done.
  destruct (next_pending _ _ _ HB E) as (Hle & Hlt & Hf).
  pose proof (next_chunksize _ _ _ E) as HB'.
  assert (Hn' : length (pending rd') + 1 + Nat.b2n (first_chunk rd') <= n).
  { rewrite Hf. simpl. destruct (pending rd) as [|l ls] eqn:Ep.
    - unfold next in E. rewrite Ep in E.
      destruct (first_chunk rd); [|done]. simpl in *. lia.
    - assert (length (pending rd') < length (l :: ls)) by (apply Hlt; done).
      simpl in *. lia. }
  specialize (IH rd'). destruct (drain n rd') as [chunks e'] eqn:Ed. simpl in *.
  apply IH; [lia | done].
Qed.

Lemma drain_more (n m : nat) (rd : TextFileReader) :
  snd (drain n rd) <> Unfinished -> n <= m -> drain m rd = drain n rd.
Proof.
  revert m rd. induction n as [|n IH]; intros m rd Hfin Hle; [simpl in Hfin; done|].
  destruct m as [|m]; [lia|]. simpl in *.
  destruct (next rd) as [chunk rd'| |e]; try done.
  rewrite (IH m rd'); [done| |lia].
  destruct (drain n rd'); simpl in *. done.
Qed.

Lemma drain_fuel_of (n : nat) (rd : TextFileReader) :
  1 <= chunksize rd ->
  length (pending rd) + 1 + Nat.b2n (first_chunk rd) <= n ->
  drain n rd = drain (fuel_of rd) rd.
Proof.
  intros HB Hn. pose proof (drain_finishes n rd HB Hn) as Hfin.
  assert (Hf : length (pending rd) + 1 + Nat.b2n (first_chunk rd) <= fuel_of rd).
  { unfold fuel_of. destruct (first_chunk rd); simpl; lia. }
  pose proof (drain_finishes _ rd HB Hf) as Hfin'.
  destruct (Nat.le_ge_cases n (fuel_of rd)) as [H|H].
  - symmetry. by apply drain_more.
  - by apply drain_more.
Qed.

Lemma batches_end_finished (rd : TextFileReader) :
  1 <= chunksize rd -> batches_end rd <> Unfinished.
Proof.
  intros HB. apply drain_finishes; [done|].
  unfold fuel_of. destruct (first_chunk rd); simpl; lia.
Qed.

(** One call of [next] unfolds the sequence of batches. *)
Lemma batches_yield (rd rd' : TextFileReader) (chunk : DataFrame) :
  1 <= chunksize rd -> next rd = Yield chunk rd' ->
  batches rd = chunk :: batches rd' /\ batches_end rd = batches_end rd'.
Proof.
  intros HB E. unfold batches, batches_end.
  destruct (next_pending _ _ _ HB E) as (Hle & Hlt & Hf).
  pose proof (next_chunksize _ _ _ E) as HB'.
  assert (Hn : length (pending rd') + 1 + Nat.b2n (first_chunk rd')
               <= S (length (pending rd))).
  { rewrite Hf. simpl. lia. }
  assert (D : drain (fuel_of rd) rd
              = let (chunks, e) := drain (fuel_of rd') rd' in (chunk :: chunks, e)).
  { unfold fuel_of at 1. rewrite drain_S, E.
    rewrite (drain_fuel_of (S (length (pending rd))) rd'); [done|lia|done]. }
  rewrite D. destruct (drain (fuel_of rd') rd'); done.
Qed.

Lemma batches_stop (rd : TextFileReader) :
  next rd = StopIteration -> batches rd = [] /\ batches_end rd = Exhausted.
Proof. intros E. unfold batches, batches_end, fuel_of. simpl. by rewrite E. Qed.

Lemma batches_raise (rd : TextFileReader) (e : exn) :
  next rd = Raise e -> batches rd = [] /\ batches_end rd = Failed e.
Proof. intros E. unfold batches, batches_end, fuel_of. simpl. by rewrite E. Qed.

(** The batches of a file whose lines all coerce. *)
Lemma batches_parsed_nil (B : nat) :
  batches (mkReader B [] false) = [] /\ batches_end (mkReader B [] false) = Exhausted.
Proof. by apply batches_stop. Qed.

Lemma batches_parsed_cons (B : nat) (r : Row) (rows : DataFrame) (f : bool) :
  1 <= B ->
  batches (mkReader B (map Parsed (r :: rows)) f)
  = take B (r :: rows) :: batches (mkReader B (map Parsed (drop B (r :: rows))) false)
  /\ batches_end (mkReader B (map Parsed (r :: rows)) f)
     = batches_end (mkReader B (map Parsed (drop B (r :: rows))) false).
Proof.
  intros HB. apply batches_yield; [done|].
  unfold next. cbn [pending chunksize map].
  change (Parsed r :: map Parsed rows) with (map Parsed (r :: rows)).
  rewrite <- fmap_take, <- fmap_drop.
  change (Parsed <$> ?l) with (map Parsed l).
  by rewrite coerce_parsed.
Qed.

Lemma div_ceil_small (R B : nat) : 1 <= R -> R <= B -> (R + B - 1) / B = 1.
Proof.
  intros H1 H2. replace (R + B - 1) with ((R - 1) + 1 * B) by lia.
  rewrite Nat.div_add by lia. rewrite Nat.div_small by lia. done.
Qed.

Lemma div_ceil_step (R B : nat) : B < R -> 1 <= B ->
  (R + B - 1) / B = S ((R - B + B - 1) / B).
Proof.
  intros H1 H2. replace (R + B - 1) with ((R - B + B - 1) + 1 * B) by lia.
  rewrite Nat.div_add by lia. lia.
Qed.

(** Shape of the batches of [R >= 1] coercible rows: their concatenation is
    the input, there are [ceil(R/B)] of them, and batch [i] holds
    [min B (R - i * B)] rows, at least one. *)
Lemma batches_parsed_shape (B n : nat) (rows : DataFrame) (f : bool) :
  1 <= B -> rows <> [] -> length rows <= n ->
  concat (batches (mkReader B (map Parsed rows) f)) = rows
  /\ batches_end (mkReader B (map Parsed rows) f) = Exhausted
  /\ length (batches (mkReader B (map Parsed rows) f)) = (length rows + B - 1) / B
  /\ (forall i b, batches (mkReader B (map Parsed rows) f) !! i = Some b ->
        length b = Nat.min B (length rows - i * B) /\ 1 <= length b).
Proof.
  intros HB. revert rows f.
  induction n as [|n IH]; intros rows f Hne Hlen.
  { destruct rows; [done | simpl in Hlen; lia]. }
  destruct rows as [|r rows]; [done|].
  destruct (batches_parsed_cons B r rows f HB) as [Eb Ee].
  rewrite Eb, Ee. clear Eb Ee.
  assert (Hall : 1 <= length (r :: rows)) by (simpl; lia).
  remember (r :: rows) as all eqn:Eall. clear Eall r rows Hne.
  destruct (drop B all) as [|r' rest] eqn:Ed.
  - (* the last batch *)
    assert (HR : length all <= B).
    { pose proof (length_drop all B) as L. rewrite Ed in L. simpl in L. lia. }
    destruct (batches_parsed_nil B) as [Eb Ee]. simpl map. rewrite Eb, Ee.
    rewrite take_ge by done. simpl. rewrite app_nil_r.
    split; [done|]. split; [done|].
    split; [by rewrite div_ceil_small|].
    intros [|i] b; simpl; [|done]. intros [= <-]. lia.
  - assert (HR : B < length all).
    { pose proof (length_drop all B) as L. rewrite Ed in L. simpl in L. lia. }
    assert (Hd : length (r' :: rest) = length all - B).
    { rewrite <- Ed. apply length_drop. }
    assert (Hn : length (r' :: rest) <= n).
    { rewrite Hd. lia. }
    destruct (IH (r' :: rest) false) as (Ec & Ee & El & Es); [done|done|].
    rewrite Hd in El.
    remember (batches (mkReader B (map Parsed (r' :: rest)) false)) as bs eqn:Ebs.
    clear Ebs.
    split; [|split; [done|split]].
    + rewrite concat_cons, Ec, <- Ed. apply take_drop.
    + cbn [length]. rewrite El. symmetry. by apply div_ceil_step.
    + intros [|i] b; simpl.
      * intros [= <-]. rewrite length_take. lia.
      * intros Hb. destruct (Es i b Hb) as [E1 E2]. split; [|done].
        rewrite E1, Hd. lia.
Qed.

(** Whatever the number of rows, the batches of a coercible file
    concatenate to its rows and the iterator ends normally. *)
Lemma batches_parsed_concat (B : nat) (rows : DataFrame) :
  1 <= B ->
  concat (batches (mkReader B (map Parsed rows) true)) = rows
  /\ batches_end (mkReader B (map Parsed rows) true) = Exhausted.
Proof.
  intros HB. destruct rows as [|r rows].
  - assert (E : next (mkReader B [] true) = Yield [] (mkReader B [] false)) by done.
    destruct (batches_yield (mkReader B [] true) _ _ HB E) as [Eb Ee].
    simpl map. rewrite Eb, Ee.
    destruct (batches_parsed_nil B) as [Eb' Ee']. by rewrite Eb', Ee'.
  - destruct (batches_parsed_shape B (length (r :: rows)) (r :: rows) true HB)
      as (H1 & H2 & _); [done | reflexivity | done].
Qed.

Lemma div_ceil_bounds (R B n : nat) :
  1 <= B -> 1 <= R -> n = (R + B - 1) / B -> (n - 1) * B < R /\ R <= n * B.
Proof.
  intros HB HR ->.
  pose proof (Nat.div_mod (R + B - 1) B ltac:(lia)) as D.
  pose proof (Nat.mod_upper_bound (R + B - 1) B ltac:(lia)) as U.
  set (q := (R + B - 1) / B) in *. set (m := (R + B - 1) mod B) in *.
  assert (1 <= q) by (destruct q; [simpl in D; lia | lia]).
  split; nia.
Qed.

(** C2 (as amended). For a file of [R >= 1] data rows that all coerce and
    a chunk size [B >= 1], the iterator ends normally after exactly
    [ceil(R/B)] batches
    (the [n] with [(n-1)*B < R <= n*B]); every batch but the last holds
    [B] rows, the last one the remainder, between 1 and [B] rows; no batch
    is empty, and the batches in order concatenate to the rows. *)
Theorem batch_sizing (B : nat) (rows : DataFrame) :
  1 <= B -> rows <> [] ->
  exists rd bs,
    read_csv_chunked B (map Parsed rows) = inr rd
    /\ batches rd = bs
    /\ batches_end rd = Exhausted
    /\ length bs = (length rows + B - 1) / B
    /\ (length bs - 1) * B < length rows <= length bs * B
    /\ (forall i b, bs !! i = Some b -> i + 1 < length bs -> length b = B)
    /\ (forall b, last bs = Some b ->
          length b = length rows - (length bs - 1) * B /\ 1 <= length b <= B)
    /\ Forall (fun b => b <> []) bs
    /\ concat bs = rows.
Proof.
  intros HB Hne.
  exists (mkReader B (map Parsed rows) true), (batches (mkReader B (map Parsed rows) true)).
  destruct (batches_parsed_shape B (length rows) rows true HB Hne (le_n _))
    as (Ec & Ee & El & Es).
  assert (HR : 1 <= length rows) by (destruct rows; [done | simpl; lia]).
  destruct (div_ceil_bounds (length rows) B _ HB HR El) as [Hlo Hhi].
  remember (batches (mkReader B (map Parsed rows) true)) as bs eqn:Ebs. clear Ebs.
  split; [by destruct B; [lia|] |].
  do 3 (split; [done|]).
  split; [done|]. split; [|split; [|split; [|done]]].
  - intros i b Hb Hi. destruct (Es i b Hb) as [E _]. rewrite E.
    assert ((i + 1) * B <= (length bs - 1) * B) by (apply Nat.mul_le_mono_r; lia).
    lia.
  - intros b Hb. rewrite last_lookup in Hb.
    destruct (Es _ b Hb) as [E H1]. rewrite E in *.
    replace (Nat.pred (length bs)) with (length bs - 1) in * by lia.
    assert (length bs * B = (length bs - 1) * B + B).
    { destruct (length bs); simpl; lia. }
    lia.
  - apply Forall_lookup_2. intros i b Hb.
    destruct (Es i b Hb) as [_ H1]. destruct b; [simpl in H1; lia | done].
Qed.

(** ** The sequential variants *)

Lemma render_app (a b : DataFrame) : render (a ++ b) = render a ++ render b.
Proof. unfold render. by rewrite map_app, concat_app. Qed.

Lemma render_chunks_app (a b : list DataFrame) :
  render_chunks (a ++ b) = render_chunks a ++ render_chunks b.
Proof. unfold render_chunks. by rewrite map_app, concat_app. Qed.

Lemma render_chunks_concat (dfs : list DataFrame) :
  render_chunks dfs = render (filtration (concat dfs)).
Proof.
  induction dfs as [|df dfs IH]; [done|].
  rewrite concat_cons, filtration_app, render_app, <- IH. done.
Qed.

Lemma sink_eta (fs : Sink) : faults fs = [] -> mkSink (content fs) [] = fs.
Proof. destruct fs; simpl; by intros ->. Qed.

Lemma to_csv_ok (df : DataFrame) (fs : Sink) :
  faults fs = [] -> to_csv df fs = (mkSink (content fs ++ render df) [], None).
Proof. intros E. unfold to_csv, pop_fault. by rewrite E. Qed.

Lemma to_csv_prefix (df : DataFrame) (fs : Sink) :
  exists data, content (fst (to_csv df fs)) = content fs ++ data.
Proof.
  unfold to_csv. destruct (pop_fault fs) as [[n|] fl]; simpl; eauto.
Qed.

Lemma write_all_ok (dfs : list DataFrame) (fs : Sink) :
  faults fs = [] ->
  write_all dfs fs = (mkSink (content fs ++ render_chunks dfs) [], None).
Proof.
  revert fs. induction dfs as [|df dfs IH]; intros fs E; simpl.
  - unfold render_chunks. simpl. by rewrite app_nil_r, sink_eta.
  - rewrite to_csv_ok by done. rewrite IH by done. simpl.
    unfold render_chunks. simpl. by rewrite app_assoc.
Qed.

(** The loop writes the batches of the iterator one after the other. *)
Lemma loop_drain (fuel : nat) (rd : TextFileReader) (fs : Sink) :
  loop fuel rd fs =
  match write_all (fst (drain fuel rd)) fs with
  | (fs', Some ex) => (fs', Raised ex)
  | (fs', None) => (fs', outcome_of (snd (drain fuel rd)))
  end.
Proof.
  revert rd fs. induction fuel as [|fuel IH]; intros rd fs; [done|].
  rewrite drain_S. simpl. destruct (next rd) as [chunk rd'| |e]; try done.
  destruct (drain fuel rd') as [chunks e'] eqn:Ed. simpl.
  destruct (to_csv (filtration chunk) fs) as [fs' [ex|]]; [done|].
  rewrite IH, Ed. done.
Qed.

Lemma process_chunked_batches (B : nat) (ls : list line) (fs : Sink) (rd : TextFileReader) :
  read_csv_chunked B ls = inr rd ->
  process_chunked B ls fs =
  match write_all (batches rd) fs with
  | (fs', Some ex) => (fs', Raised ex)
  | (fs', None) => (fs', outcome_of (batches_end rd))
  end.
Proof. intros E. unfold process_chunked. rewrite E. apply loop_drain. Qed.

Lemma read_csv_chunked_ok (B : nat) (ls : list line) :
  1 <= B -> read_csv_chunked B ls = inr (mkReader B ls true).
Proof. destruct B; [lia | done]. Qed.




(** ** The worker pool *)

(** Destructs the matches of an enabled [step]. *)
Ltac step_cases H :=
  unfold step, set_worker in H;
  repeat (case_match; try discriminate);
  simplify_eq.

Lemma workers_split (ws : list worker) (k : nat) (w w' : worker) :
  ws !! k = Some w ->
  exists before after,
    ws = before ++ w :: after /\ <[k := w']> ws = before ++ w' :: after.
Proof.
  intros H. exists (take k ws), (drop (S k) ws). split.
  - symmetry. by apply take_drop_middle.
  - apply insert_take_drop. by eapply lookup_lt_Some.
Qed.

Lemma perm_swap {A : Type} (a x c y : list A) :
  (a ++ x ++ c) ++ y ≡ₚ (a ++ y ++ c) ++ x.
Proof.
  rewrite <- !app_assoc. apply Permutation_app_head.
  rewrite (Permutation_app_comm x (c ++ y)).
  rewrite (Permutation_app_comm c y). by rewrite <- app_assoc.
Qed.

Lemma chunks_insert (ws : list worker) (k : nat) (w w' : worker) :
  ws !! k = Some w ->
  concat (map chunk_of (<[k := w']> ws)) ++ chunk_of w
  ≡ₚ concat (map chunk_of ws) ++ chunk_of w'.
Proof.
  intros H. destruct (workers_split ws k w w' H) as (before & after & E1 & E2).
  rewrite E2, E1.
  rewrite !map_app, !concat_app. simpl. apply perm_swap.
Qed.

Lemma sum_insert (f : worker -> nat) (ws : list worker) (k : nat) (w w' : worker) :
  ws !! k = Some w ->
  list_sum (map f (<[k := w']> ws)) + f w = list_sum (map f ws) + f w'.
Proof.
  intros H. destruct (workers_split ws k w w' H) as (before & after & E1 & E2).
  rewrite E2, E1.
  rewrite !map_app, !list_sum_app. simpl. lia.
Qed.

Lemma count_insert (p : worker -> bool) (ws : list worker) (k : nat) (w w' : worker) :
  ws !! k = Some w ->
  length (List.filter p (<[k := w']> ws)) + Nat.b2n (p w)
  = length (List.filter p ws) + Nat.b2n (p w').
Proof.
  intros H. destruct (workers_split ws k w w' H) as (before & after & E1 & E2).
  rewrite E2, E1.
  rewrite !List.filter_app, !length_app. simpl.
  destruct (p w), (p w'); simpl; lia.
Qed.

(** *** Mutual exclusion *)

Lemma exclusive_step (ev : event) (s s' : Pool) :
  exclusive s -> step ev s = Some s' -> exclusive s'.
Proof.
  intros [U L] H. step_cases H; unfold exclusive; simpl.
  all: try (split; [exact U | exact L]).
  all: split;
    [ intros j k' wj wk Hj Hk Wj Wk;
      apply list_lookup_insert_Some in Hj as [(<- & <- & _)|[Nj Hj]];
      apply list_lookup_insert_Some in Hk as [(<- & <- & _)|[Nk Hk]];
      try done; try (by eapply U);
      try (exfalso; first [ erewrite (L _ _ Hj Wj) in *; done
                          | erewrite (L _ _ Hk Wk) in *; done ]);
      try (exfalso; first [ apply Nj; eapply U; eauto; done
                          | apply Nk; eapply U; eauto; done ])
    | intros j w Hj Wj;
      apply list_lookup_insert_Some in Hj as [(<- & <- & _)|[Nj Hj]];
      try done; try (by eapply L);
      try (exfalso; apply Nj; eapply U; eauto; done) ].
Qed.

(** *** The destination while no write fails *)

Lemma progress_of_other (s : Pool) (pre : list byte) (k : nat) (w w' : worker)
    (m : main_state) (ts : list (DataFrame * nat)) (fs : Sink) :
  workers s !! k = Some w -> is_writing w = false ->
  progress_of s pre ->
  progress_of (mkPool m ts (<[k := w']> (workers s)) (lock s) fs) pre.
Proof.
  intros Hk Hw. unfold progress_of. simpl. destruct (lock s); [|done].
  intros (k0 & chunk & i & rest & Hk0 & E). exists k0, chunk, i, rest.
  split; [|done]. rewrite list_lookup_insert_ne; [done|].
  intros ->. rewrite Hk in Hk0. by simplify_eq.
Qed.

Lemma consistent_submit (c0 : list byte) (all : list DataFrame) (s s' : Pool) :
  consistent c0 all s -> step EvSubmit s = Some s' -> consistent c0 all s'.
Proof.
  intros (Hf & Hr & Hn & done & pre & Hc & Hp & Hg) H.
  unfold unwritten in Hp.
  step_cases H; unfold consistent, unwritten; simpl; simpl in Hr, Hp;
    match goal with E : next _ = _ |- _ => rename E into Hnext end.
  - destruct (batches_yield _ _ _ Hr Hnext) as [Eb _]. rewrite Eb in Hp.
    split; [done|]. split; [by rewrite (next_chunksize _ _ _ Hnext)|].
    split; [done|]. exists done, pre. split; [done|]. split; [|done].
    rewrite map_app, <- app_assoc. exact Hp.
  - destruct (batches_stop _ Hnext) as [Eb _]. rewrite Eb in Hp.
    do 3 (split; [done|]). exists done, pre. done.
  - destruct (batches_raise _ _ Hnext) as [Eb _]. rewrite Eb in Hp.
    do 3 (split; [done|]). exists done, pre. done.
Qed.

Lemma consistent_take (c0 : list byte) (all : list DataFrame) (k : nat) (s s' : Pool) :
  consistent c0 all s -> step (EvTake k) s = Some s' -> consistent c0 all s'.
Proof.
  intros (Hf & Hr & Hn & done & pre & Hc & Hp & Hg) H.
  unfold unwritten in Hp.
  step_cases H; unfold consistent, unwritten; simpl.
  match goal with Hk : workers s !! k = Some Idle |- _ => rename Hk into Hw end.
  simpl in Hp.
  do 2 (split; [done|]). split; [by apply Forall_insert|].
  exists done, pre. split; [done|]. split.
  - rewrite <- Hp. apply Permutation_app_head.
    match goal with |- context [Running ?c ?i] =>
      pose proof (chunks_insert (workers s) k Idle (Running c i) Hw) as P end.
    simpl in P. rewrite app_nil_r in P. rewrite P.
    rewrite <- !app_assoc. done.
  - by eapply progress_of_other.
Qed.

Lemma chunks_insert_same (ws : list worker) (k : nat) (w w' : worker) :
  ws !! k = Some w -> chunk_of w = chunk_of w' ->
  concat (map chunk_of (<[k := w']> ws)) = concat (map chunk_of ws).
Proof.
  intros H E. destruct (workers_split ws k w w' H) as (before & after & E1 & E2).
  rewrite E2, E1, !map_app, !concat_app. simpl. by rewrite E.
Qed.

Lemma no_fault_lookup (ws : list worker) (k : nat) (chunk : DataFrame) (i : nat)
    (rest : list byte) (n : nat) :
  Forall no_fault ws -> ws !! k = Some (Writing chunk i rest (Some n)) -> False.
Proof. intros F H. exact (Forall_lookup_1 _ _ _ _ F H). Qed.

(** The worker inside [to_csv] is the one [progress_of] speaks of. *)
Lemma progress_of_writer (s : Pool) (pre : list byte) (k : nat) (chunk : DataFrame)
    (i : nat) (rest : list byte) (f : option nat) :
  exclusive s -> progress_of s pre ->
  workers s !! k = Some (Writing chunk i rest f) ->
  lock s = true /\ f = None /\ pre ++ rest = render (filtration chunk).
Proof.
  intros [U L] Hg Hk. pose proof (L _ _ Hk eq_refl) as Hl.
  unfold progress_of in Hg. rewrite Hl in Hg.
  destruct Hg as (k0 & chunk0 & i0 & rest0 & Hk0 & E).
  assert (k0 = k) as -> by (by eapply U).
  rewrite Hk in Hk0. by simplify_eq.
Qed.

Lemma consistent_acquire (c0 : list byte) (all : list DataFrame) (k : nat) (s s' : Pool) :
  consistent c0 all s -> step (EvAcquire k) s = Some s' -> consistent c0 all s'.
Proof.
  intros (Hf & Hr & Hn & done & pre & Hc & Hp & Hg) H.
  unfold unwritten in Hp.
  step_cases H; unfold consistent, unwritten; simpl.
  match goal with Hk : workers s !! k = Some _ |- _ => rename Hk into Hw end.
  match goal with Hk : pop_fault _ = _ |- _ =>
    unfold pop_fault in Hk; rewrite Hf in Hk; simplify_eq end.
  match goal with Hk : lock s = false |- _ =>
    unfold progress_of in Hg; rewrite Hk in Hg; subst pre end.
  do 2 (split; [done|]). split; [by apply Forall_insert|].
  exists done, []. split; [done|]. split.
  - erewrite chunks_insert_same; [exact Hp | exact Hw | done].
  - unfold progress_of. simpl. do 4 eexists. split; [|reflexivity].
    apply list_lookup_insert_eq. by eapply lookup_lt_Some.
Qed.

Lemma consistent_write (c0 : list byte) (all : list DataFrame) (k : nat) (s s' : Pool) :
  exclusive s -> consistent c0 all s -> step (EvWrite k) s = Some s' ->
  consistent c0 all s'.
Proof.
  intros He (Hf & Hr & Hn & done & pre & Hc & Hp & Hg) H.
  unfold unwritten in Hp.
  step_cases H; unfold consistent, unwritten; simpl;
    match goal with Hk : workers s !! k = Some _ |- _ => rename Hk into Hw end.
  { exfalso. eapply no_fault_lookup; eauto. }
  destruct (progress_of_writer _ _ _ _ _ _ _ He Hg Hw) as (Hl & _ & E).
  do 2 (split; [done|]). split; [by apply Forall_insert|].
  match goal with |- context [content (sink s) ++ [?b]] => exists done, (pre ++ [b]) end.
  split; [rewrite Hc, <- !app_assoc; done|]. split.
  - erewrite chunks_insert_same; [exact Hp | exact Hw | done].
  - unfold progress_of. simpl. rewrite Hl. do 4 eexists. split.
    + apply list_lookup_insert_eq. by eapply lookup_lt_Some.
    + rewrite <- E, <- app_assoc. done.
Qed.

Lemma consistent_raise (c0 : list byte) (all : list DataFrame) (k : nat) (s s' : Pool) :
  consistent c0 all s -> step (EvRaise k) s = Some s' -> False.
Proof.
  intros (Hf & Hr & Hn & _) H.
  step_cases H; eapply no_fault_lookup; eauto.
Qed.

Lemma consistent_release (c0 : list byte) (all : list DataFrame) (k : nat) (s s' : Pool) :
  exclusive s -> consistent c0 all s -> step (EvRelease k) s = Some s' ->
  consistent c0 all s'.
Proof.
  intros He (Hf & Hr & Hn & done & pre & Hc & Hp & Hg) H.
  unfold unwritten in Hp.
  step_cases H; unfold consistent, unwritten; simpl.
  match goal with Hk : workers s !! k = Some _ |- _ => rename Hk into Hw end.
  destruct (progress_of_writer _ _ _ _ _ _ _ He Hg Hw) as (Hl & _ & E).
  rewrite app_nil_r in E. subst pre.
  do 2 (split; [done|]). split; [by apply Forall_insert|].
  match type of Hw with _ = Some (Writing ?c _ _ _) => exists (done ++ [c]), [] end.
  split; [|split; [|done]].
  - rewrite Hc, render_chunks_app. unfold render_chunks at 3. simpl.
    by rewrite !app_nil_r.
  - rewrite <- Hp, <- !app_assoc. apply Permutation_app_head.
    match type of Hw with _ = Some ?w =>
      pose proof (chunks_insert (workers s) k w Idle Hw) as P end.
    simpl in P. rewrite app_nil_r in P. rewrite <- P.
    rewrite <- !app_assoc. simpl. apply Permutation_middle.
Qed.

Lemma consistent_step (c0 : list byte) (all : list DataFrame) (ev : event) (s s' : Pool) :
  exclusive s -> consistent c0 all s -> step ev s = Some s' -> consistent c0 all s'.
Proof.
  intros He Hc H. destruct ev as [|k|k|k|k|k].
  - by eapply consistent_submit.
  - by eapply consistent_take.
  - by eapply consistent_acquire.
  - by eapply consistent_write.
  - exfalso. by eapply consistent_raise.
  - by eapply consistent_release.
Qed.

Lemma run_app (a b : list event) (s : Pool) :
  run (a ++ b) s = match run a s with Some s' => run b s' | None => None end.
Proof.
  revert s. induction a as [|ev a IH]; intros s; simpl; [done|].
  destruct (step ev s); [apply IH | done].
Qed.

Lemma run_exclusive (sched : list event) (s s' : Pool) :
  exclusive s -> run sched s = Some s' -> exclusive s'.
Proof.
  revert s. induction sched as [|ev sched IH]; intros s He H; simpl in H.
  - by simplify_eq.
  - destruct (step ev s) as [s1|] eqn:E; [|done].
    eapply IH; [|exact H]. by eapply exclusive_step.
Qed.

Lemma run_consistent (c0 : list byte) (all : list DataFrame) (sched : list event)
    (s s' : Pool) :
  exclusive s -> consistent c0 all s -> run sched s = Some s' -> consistent c0 all s'.
Proof.
  revert s. induction sched as [|ev sched IH]; intros s He Hc H; simpl in H.
  - by simplify_eq.
  - destruct (step ev s) as [s1|] eqn:E; [|done].
    eapply IH; [| |exact H].
    + by eapply exclusive_step.
    + by eapply consistent_step.
Qed.

(** *** The initial state *)

Lemma start_inv (W B : nat) (ls : list line) (fs : Sink) (s0 : Pool) :
  start W B ls fs = inr s0 ->
  1 <= W /\ 1 <= B
  /\ s0 = mkPool (Submitting (mkReader B ls true) 0) [] (replicate W Idle) false fs.
Proof.
  unfold start, read_csv_chunked. destruct W; [done|]. destruct B; [done|].
  intros [= <-]. split; [lia|]. split; [lia|]. done.
Qed.

Lemma replicate_idle_lookup (W k : nat) (w : worker) :
  replicate W Idle !! k = Some w -> w = Idle.
Proof. intros H. by apply lookup_replicate in H as [-> _]. Qed.

Lemma replicate_idle_chunks (W : nat) : concat (map chunk_of (replicate W Idle)) = [].
Proof. induction W as [|W IH]; simpl; done. Qed.

Lemma start_exclusive (W B : nat) (ls : list line) (fs : Sink) (s0 : Pool) :
  start W B ls fs = inr s0 -> exclusive s0.
Proof.
  intros H. apply start_inv in H as (_ & _ & ->). split; simpl.
  - intros j k wj wk Hj _ Wj _. apply replicate_idle_lookup in Hj. by subst.
  - intros j w Hj Wj. apply replicate_idle_lookup in Hj. by subst.
Qed.

Lemma start_consistent (W B : nat) (ls : list line) (fs : Sink) (s0 : Pool) :
  faults fs = [] -> start W B ls fs = inr s0 ->
  consistent (content fs) (batches (mkReader B ls true)) s0.
Proof.
  intros Hf H. apply start_inv in H as (_ & HB & ->).
  unfold consistent, unwritten. simpl.
  split; [done|]. split; [done|]. split; [by apply Forall_replicate|].
  exists [], []. split; [by rewrite app_nil_r|].
  split; [by rewrite replicate_idle_chunks|]. done.
Qed.

(** *** Every run ends *)

Lemma step_reader_ok (ev : event) (s s' : Pool) :
  reader_ok (main s) -> step ev s = Some s' -> reader_ok (main s').
Proof.
  intros Hr H. step_cases H; simpl; try done.
  simpl in Hr. match goal with E : next _ = _ |- _ => by rewrite (next_chunksize _ _ _ E) end.
Qed.

Lemma step_workers_length (ev : event) (s s' : Pool) :
  step ev s = Some s' -> length (workers s') = length (workers s).
Proof. intros H. step_cases H; simpl; by rewrite ?length_insert. Qed.

(** Each action uses up some of the cost. *)
Lemma step_cost (ev : event) (s s' : Pool) :
  reader_ok (main s) -> step ev s = Some s' -> cost s' < cost s.
Proof.
  intros Hr H. unfold cost. step_cases H; simpl; simpl in Hr;
    try match goal with Hk : workers s !! ?k = Some ?w |- context [<[?k := ?w']> _] =>
      pose proof (sum_insert worker_cost (workers s) k w w' Hk) as P; simpl in P end;
    unfold block_cost in *; try lia.
  match goal with E : next _ = _ |- _ =>
    destruct (batches_yield _ _ _ Hr E) as [-> _] end.
  rewrite map_app, list_sum_app. simpl. lia.
Qed.

Lemma step_submit_enabled (s : Pool) (rd : TextFileReader) (i : nat) :
  main s = Submitting rd i -> exists s', step EvSubmit s = Some s'.
Proof. intros E. unfold step. rewrite E. destruct (next rd); eauto. Qed.

Lemma writer_enabled (s : Pool) (k : nat) (chunk : DataFrame) (i : nat) (rest : list byte) :
  workers s !! k = Some (Writing chunk i rest None) ->
  exists ev s', step ev s = Some s'.
Proof.
  intros Hk. destruct rest as [|b rest].
  - exists (EvRelease k). unfold step. rewrite Hk. eauto.
  - exists (EvWrite k). unfold step. rewrite Hk. eauto.
Qed.

Lemma workers_cases (ws : list worker) :
  (exists k chunk i rest f, ws !! k = Some (Writing chunk i rest f))
  \/ (exists k chunk i, ws !! k = Some (Running chunk i))
  \/ forallb is_idle ws = true.
Proof.
  induction ws as [|w ws IH]; [by right; right|].
  destruct w as [|chunk i|chunk i rest f].
  - destruct IH as [(k & c & i & r & f & H)|[(k & c & i & H)|H]].
    + left. by exists (S k), c, i, r, f.
    + right; left. by exists (S k), c, i.
    + by right; right.
  - right; left. by exists 0, chunk, i.
  - left. by exists 0, chunk, i, rest, f.
Qed.

Lemma all_idle_lookup (ws : list worker) (k : nat) (w : worker) :
  forallb is_idle ws = true -> ws !! k = Some w -> w = Idle.
Proof.
  revert k. induction ws as [|w0 ws IH]; intros k Hall Hk; [done|].
  simpl in Hall. apply andb_prop in Hall as [H0 Hall].
  destruct k as [|k]; simpl in Hk.
  - simplify_eq. by destruct w.
  - by eapply IH.
Qed.

Lemma all_idle_chunks (ws : list worker) :
  forallb is_idle ws = true -> concat (map chunk_of ws) = [].
Proof.
  induction ws as [|w ws IH]; [done|]. simpl. intros Hall.
  apply andb_prop in Hall as [H0 Hall]. destruct w; try done. simpl. by apply IH.
Qed.

(** While no write fails, a state that is not finished has an enabled
    action: the pool does not deadlock. *)
Lemma progress (c0 : list byte) (all : list DataFrame) (s : Pool) :
  consistent c0 all s -> 1 <= length (workers s) -> finished s = false ->
  exists ev s', step ev s = Some s'.
Proof.
  intros (Hf & Hr & Hn & done & pre & Hc & Hp & Hg) HW Hfin.
  destruct (main s) as [rd i| |e] eqn:Em.
  { exists EvSubmit. by eapply step_submit_enabled. }
  all: destruct (workers_cases (workers s))
         as [(k & c & i & r & f & Hk)|[(k & c & i & Hk)|Hall]].
  all: try (destruct f as [n|]; [exfalso; by eapply no_fault_lookup|];
            by eapply writer_enabled).
  all: try (destruct (lock s) eqn:El;
            [ unfold progress_of in Hg; rewrite El in Hg;
              destruct Hg as (k0 & c0' & i0 & r0 & Hk0 & _); by eapply writer_enabled
            | exists (EvAcquire k); unfold step; rewrite Hk, El;
              destruct (pop_fault (sink s)); eauto ]).
  all: unfold finished in Hfin; rewrite Em, Hall in Hfin; simpl in Hfin;
       rewrite andb_true_r in Hfin; apply bool_decide_eq_false in Hfin;
       destruct (tasks s) as [|[c i] ts] eqn:Et; [done|];
       destruct (workers s) as [|w ws] eqn:Ew; [simpl in HW; lia|];
       assert (w = Idle) as -> by (by eapply (all_idle_lookup _ 0));
       exists (EvTake 0); unfold step; rewrite Ew, Et; simpl; eauto.
Qed.

Lemma finish_exists (c0 : list byte) (all : list DataFrame) (n : nat) (s : Pool) :
  cost s <= n -> exclusive s -> consistent c0 all s -> 1 <= length (workers s) ->
  exists sched s', run sched s = Some s' /\ finished s' = true.
Proof.
  revert s. induction n as [|n IH]; intros s Hn He Hc HW;
    (destruct (finished s) eqn:Hfin; [by exists [], s|]);
    destruct (progress _ _ _ Hc HW Hfin) as (ev & s1 & Hs);
    assert (Hr : reader_ok (main s)) by apply Hc;
    pose proof (step_cost _ _ _ Hr Hs) as Hlt; [lia|].
  destruct (IH s1) as (sched & s' & Hrun & Hf').
  - lia.
  - by eapply exclusive_step.
  - by eapply consistent_step.
  - by rewrite (step_workers_length _ _ _ Hs).
  - exists (ev :: sched), s'. simpl. by rewrite Hs.
Qed.

(** A finished state holds the whole blocks of all the batches, in some order. *)
Lemma finished_content (c0 : list byte) (all : list DataFrame) (s : Pool) :
  consistent c0 all s -> finished s = true ->
  exists done, content (sink s) = c0 ++ render_chunks done /\ done ≡ₚ all.
Proof.
  intros (Hf & Hr & Hn & done & pre & Hc & Hp & Hg) Hfin.
  unfold finished in Hfin.
  apply andb_prop in Hfin as [Hfin Hidle]. apply andb_prop in Hfin as [Hm Ht].
  apply bool_decide_eq_true in Ht.
  assert (pre = []) as ->.
  { unfold progress_of in Hg. destruct (lock s); [|done].
    destruct Hg as (k & c & i & r & Hk & _).
    by pose proof (all_idle_lookup _ _ _ Hidle Hk). }
  exists done. split; [by rewrite Hc, app_nil_r|].
  unfold unwritten in Hp. rewrite all_idle_chunks, Ht in Hp by done.
  destruct (main s); [done| |]; simpl in Hp; by rewrite app_nil_r in Hp.
Qed.

Lemma perm_concat {A : Type} (l l' : list (list A)) :
  l ≡ₚ l' -> concat l ≡ₚ concat l'.
Proof.
  induction 1 as [|x l l' _ IH|x y l|l l' l'' _ IH1 _ IH2]; simpl.
  - done.
  - by apply Permutation_app_head.
  - rewrite !app_assoc. apply Permutation_app_tail, Permutation_app_comm.
  - by etransitivity.
Qed.

Lemma select_perm (p : Predicate) (l l' : DataFrame) :
  l ≡ₚ l' -> select p l ≡ₚ select p l'.
Proof.
  unfold select.
  induction 1 as [|x l l' _ IH|x y l|l l' l'' _ IH1 _ IH2]; simpl.
  - done.
  - destruct (p x); [by constructor | done].
  - destruct (p x), (p y); try done. apply Permutation_swap.
  - by etransitivity.
Qed.

Lemma filtration_perm (l l' : DataFrame) : l ≡ₚ l' -> filtration l ≡ₚ filtration l'.
Proof. rewrite !filtration_keep. apply select_perm. Qed.

(** *** Batches in flight *)

Lemma step_in_flight (ev : event) (s s' : Pool) :
  reader_ok (main s) -> step ev s = Some s' ->
  in_flight s' + length (future (main s')) <= in_flight s + length (future (main s)).
Proof.
  intros Hr H. unfold in_flight. step_cases H; simpl; simpl in Hr;
    try match goal with Hk : workers s !! ?k = Some ?w |- context [<[?k := ?w']> _] =>
      pose proof (count_insert (fun x => negb (is_idle x)) (workers s) k w w' Hk) as P;
      simpl in P end;
    try lia.
  match goal with E : next _ = _ |- _ =>
    destruct (batches_yield _ _ _ Hr E) as [-> _] end.
  rewrite length_app. simpl. lia.
Qed.

Lemma run_reader_ok (sched : list event) (s s' : Pool) :
  reader_ok (main s) -> run sched s = Some s' -> reader_ok (main s').
Proof.
  revert s. induction sched as [|ev sched IH]; intros s Hr H; simpl in H.
  - by simplify_eq.
  - destruct (step ev s) as [s1|] eqn:E; [|done].
    eapply IH; [|exact H]. by eapply step_reader_ok.
Qed.

Lemma run_in_flight (sched : list event) (s s' : Pool) :
  reader_ok (main s) -> run sched s = Some s' ->
  in_flight s' + length (future (main s')) <= in_flight s + length (future (main s)).
Proof.
  revert s. induction sched as [|ev sched IH]; intros s Hr H; simpl in H.
  - by simplify_eq.
  - destruct (step ev s) as [s1|] eqn:E; [|done].
    pose proof (step_in_flight _ _ _ Hr E).
    pose proof (IH s1 (step_reader_ok _ _ _ Hr E) H). lia.
Qed.

Lemma replicate_idle_busy (W : nat) :
  List.filter (fun w => negb (is_idle w)) (replicate W Idle) = [].
Proof. induction W as [|W IH]; simpl; done. Qed.

(** The main process can hand over every batch before any worker starts. *)
Lemma submit_all (bs : list DataFrame) (rd : TextFileReader) (i : nat)
    (ts : list (DataFrame * nat)) (ws : list worker) (l : bool) (fs : Sink) :
  1 <= chunksize rd -> batches rd = bs ->
  exists s, run (replicate (length bs) EvSubmit) (mkPool (Submitting rd i) ts ws l fs) = Some s
            /\ length (tasks s) = length ts + length bs /\ workers s = ws.
Proof.
  revert rd i ts. induction bs as [|c bs IH]; intros rd i ts HB Eb.
  - eexists. simpl. split; [reflexivity|]. simpl. split; [lia | done].
  - destruct (next rd) as [c' rd'| |e] eqn:E.
    + destruct (batches_yield _ _ _ HB E) as [Eb' _]. rewrite Eb in Eb'.
      injection Eb' as -> Eb'.
      destruct (IH rd' (S i) (ts ++ [(c', i)])) as (s & Hrun & Hlen & Hws).
      { by rewrite (next_chunksize _ _ _ E). }
      { done. }
      exists s. simpl. rewrite E. split; [exact Hrun|].
      rewrite Hlen, length_app. simpl. split; [lia | done].
    + destruct (batches_stop _ E) as [Eb' _]. congruence.
    + destruct (batches_raise _ _ E) as [Eb' _]. congruence.
Qed.

(** C5 (as amended). The pool has no bound on the batches in flight and
    the main process never waits for a worker: in every reachable state
    with the main process in its loop the next submission is enabled; the
    number of batches in flight never exceeds the number [n] of batches the
    iterator yields, and it reaches [n] when the main process runs ahead of
    the workers; for a file of [R >= 1] data rows that all coerce, [n] is
    [ceil(R/B)]. *)
Theorem no_backpressure (W B : nat) (ls : list line) (fs : Sink) (s0 : Pool) :
  start W B ls fs = inr s0 ->
  let n := length (batches (mkReader B ls true)) in
  (forall sched s, run sched s0 = Some s ->
     in_flight s <= n
     /\ (forall rd i, main s = Submitting rd i -> exists s', step EvSubmit s = Some s'))
  /\ (exists s, run (replicate n EvSubmit) s0 = Some s /\ in_flight s = n)
  /\ (forall rows, ls = map Parsed rows -> rows <> [] ->
        n = (length rows + B - 1) / B
        /\ (n - 1) * B < length rows <= n * B).
Proof.
  intros H n. apply start_inv in H as (HW & HB & ->). split; [|split].
  - intros sched s Hrun. split.
    + pose proof (run_in_flight sched _ s (HB : reader_ok (main (mkPool
        (Submitting (mkReader B ls true) 0) [] (replicate W Idle) false fs))) Hrun) as Hle.
      unfold in_flight at 2 in Hle. simpl in Hle.
      rewrite replicate_idle_busy in Hle. simpl in Hle. fold n in Hle. lia.
    + intros rd i Em. by eapply step_submit_enabled.
  - destruct (submit_all (batches (mkReader B ls true)) (mkReader B ls true) 0 []
                (replicate W Idle) false fs HB eq_refl) as (s & Hrun & Hlen & Hws).
    exists s. split; [exact Hrun|].
    unfold in_flight. rewrite Hws, replicate_idle_busy, Hlen. simpl. unfold n. lia.
  - intros rows -> Hne.
    destruct (batches_parsed_shape B (length rows) rows true HB Hne (le_n _))
      as (_ & _ & El & _).
    assert (HR : 1 <= length rows) by (destruct rows; [done | simpl; lia]).
    split; [exact El|]. by apply div_ceil_bounds.
Qed.

(** *** One writer at a time *)

Lemma no_writer_count (ws : list worker) :
  (forall j w, ws !! j = Some w -> is_writing w = false) ->
  List.filter is_writing ws = [].
Proof.
  induction ws as [|w ws IH]; intros H; [done|]. simpl.
  rewrite (H 0 w eq_refl). apply IH. intros j w' Hj. exact (H (S j) w' Hj).
Qed.

Lemma unique_count (ws : list worker) :
  (forall j k wj wk, ws !! j = Some wj -> ws !! k = Some wk ->
     is_writing wj = true -> is_writing wk = true -> j = k) ->
  length (List.filter is_writing ws) <= 1.
Proof.
  induction ws as [|w ws IH]; intros U; [simpl; lia|]. simpl.
  destruct (is_writing w) eqn:Ew.
  - rewrite no_writer_count; [simpl; lia|].
    intros j w' Hj. destruct (is_writing w') eqn:Ew'; [|done].
    by pose proof (U 0 (S j) w w' eq_refl Hj Ew Ew').
  - apply IH. intros j k wj wk Hj Hk Wj Wk.
    pose proof (U (S j) (S k) wj wk Hj Hk Wj Wk). lia.
Qed.

(** C6. In a pool of [W > 1] workers, in every reachable state, whether
    writes fail or not: at most one worker is inside [to_csv], and only
    with the lock held.  When no write fails the bytes of the destination
    are never interleaved: it holds what it held at the start, then the
    whole blocks of the batches written so far, each the lines of the
    surviving rows of one batch in their order, then the part written so
    far of the block of the worker holding the lock. *)
Theorem sink_mutual_exclusion (W B : nat) (ls : list line) (fs : Sink) (s0 : Pool)
    (sched : list event) (s : Pool) :
  1 < W -> start W B ls fs = inr s0 -> run sched s0 = Some s ->
  writers s <= 1
  /\ (forall j k wj wk,
        workers s !! j = Some wj -> workers s !! k = Some wk ->
        is_writing wj = true -> is_writing wk = true -> j = k)
  /\ (forall k w, workers s !! k = Some w -> is_writing w = true -> lock s = true)
  /\ (faults fs = [] ->
      exists done pre,
        content (sink s) = content fs ++ render_chunks done ++ pre
        /\ done ++ unwritten s ≡ₚ batches (mkReader B ls true)
        /\ progress_of s pre).
Proof.
  intros _ Hs Hrun.
  pose proof (run_exclusive _ _ _ (start_exclusive _ _ _ _ _ Hs) Hrun) as [U L].
  split; [by apply unique_count|]. split; [exact U|]. split; [exact L|].
  intros Hf.
  pose proof (run_consistent _ _ _ _ _ (start_exclusive _ _ _ _ _ Hs)
                (start_consistent _ _ _ _ _ Hf Hs) Hrun) as (_ & _ & _ & Hc).
  exact Hc.
Qed.

(** *** The rows written do not depend on the schedule *)

(** What a finished run has written, when no write fails. *)
Lemma pool_written (W B : nat) (ls : list line) (fs : Sink) (s0 : Pool)
    (sched : list event) (s : Pool) :
  faults fs = [] -> start W B ls fs = inr s0 ->
  run sched s0 = Some s -> finished s = true ->
  faults (sink s) = []
  /\ exists written,
       content (sink s) = content fs ++ render written
       /\ written ≡ₚ filtration (concat (batches (mkReader B ls true))).
Proof.
  intros Hf Hs Hrun Hfin.
  pose proof (run_consistent _ _ _ _ _ (start_exclusive _ _ _ _ _ Hs)
                (start_consistent _ _ _ _ _ Hf Hs) Hrun) as Hc.
  split; [apply Hc|].
  destruct (finished_content _ _ _ Hc Hfin) as (done & Econ & Hperm).
  exists (filtration (concat done)). split.
  - by rewrite Econ, render_chunks_concat.
  - by apply filtration_perm, perm_concat.
Qed.

(** C7. For every input, chunk size and number of workers, when no write
    fails: the pool has a schedule that finishes, and every schedule that
    finishes, whatever the number of workers and the order of their
    actions, leaves in the destination the lines of a permutation of the
    rows the sequential chunked run writes (for a file whose lines all
    coerce: the rows that pass the filters). *)
Theorem worker_count_independence (W B : nat) (ls : list line) (fs : Sink) (s0 : Pool) :
  faults fs = [] -> start W B ls fs = inr s0 ->
  exists survivors,
    content (fst (process_chunked B ls fs)) = content fs ++ render survivors
    /\ (forall rows, ls = map Parsed rows -> survivors = select keep rows)
    /\ (exists sched s, run sched s0 = Some s /\ finished s = true)
    /\ (forall sched s, run sched s0 = Some s -> finished s = true ->
          exists written,
            content (sink s) = content fs ++ render written /\ written ≡ₚ survivors).
Proof.
  intros Hf Hs.
  pose proof (start_exclusive _ _ _ _ _ Hs) as He.
  pose proof (start_consistent _ _ _ _ _ Hf Hs) as Hc.
  destruct (start_inv _ _ _ _ _ Hs) as (HW & HB & E0).
  exists (filtration (concat (batches (mkReader B ls true)))).
  split; [|split; [|split]].
  - rewrite (process_chunked_batches B ls fs _ (read_csv_chunked_ok B ls HB)).
    rewrite write_all_ok by done.
    destruct (outcome_of _); simpl; by rewrite render_chunks_concat.
  - intros rows ->. destruct (batches_parsed_concat B rows HB) as [-> _].
    apply filtration_keep.
  - eapply (finish_exists _ _ (cost s0)); [done|done|done|].
    subst s0. simpl. by rewrite length_replicate.
  - intros sched s Hrun Hfin.
    by destruct (pool_written _ _ _ _ _ _ _ Hf Hs Hrun Hfin) as [_ Hw].
Qed.

(** ** Failing writes and the append-only destination *)

Lemma write_all_fault (pre post : list DataFrame) (chunk : DataFrame) (c : list byte)
    (n : nat) (fl : list (option nat)) :
  write_all (pre ++ chunk :: post) (mkSink c (replicate (length pre) None ++ Some n :: fl))
  = (mkSink (c ++ render_chunks pre ++ take n (render (filtration chunk))) fl, Some OSError).
Proof.
  revert c. induction pre as [|df pre IH]; intros c; simpl.
  - unfold to_csv, pop_fault. simpl. done.
  - rewrite IH. unfold render_chunks. simpl. by rewrite <- !app_assoc.
Qed.

(** C4 (as amended). In the sequential variants a failing [to_csv] ends
    the run at once with [OSError] raised to the caller: when the write of
    batch [chunk] fails after [n] bytes, the destination holds what it held
    before, the whole blocks of the batches before it and at most [n] bytes
    of its block; the write is not tried again and no later batch is
    written (the faults [fl] of later calls are left untouched).  The
    single pass ends the same way at its one write. *)
Theorem write_failure_halts_sequential (B n : nat) (ls : list line) (rd : TextFileReader)
    (pre post : list DataFrame) (chunk : DataFrame) (c : list byte)
    (fl : list (option nat)) :
  read_csv_chunked B ls = inr rd -> batches rd = pre ++ chunk :: post ->
  process_chunked B ls (mkSink c (replicate (length pre) None ++ Some n :: fl))
  = (mkSink (c ++ render_chunks pre ++ take n (render (filtration chunk))) fl,
     Raised OSError)
  /\ (forall df, read_csv ls = inr df ->
        process_single_pass ls (mkSink c (Some n :: fl))
        = (mkSink (c ++ take n (render (filtration df))) fl, Raised OSError)).
Proof.
  intros Hrd Hb. split.
  - rewrite (process_chunked_batches B ls _ rd Hrd), Hb, write_all_fault. done.
  - intros df Hdf. unfold process_single_pass. rewrite Hdf. done.
Qed.

Lemma loop_prefix (fuel : nat) (rd : TextFileReader) (fs : Sink) :
  exists data, content (fst (loop fuel rd fs)) = content fs ++ data.
Proof.
  revert rd fs. induction fuel as [|fuel IH]; intros rd fs; simpl.
  { exists []. by rewrite app_nil_r. }
  destruct (next rd) as [chunk rd'| |e]; simpl;
    try (exists []; by rewrite app_nil_r).
  destruct (to_csv_prefix (filtration chunk) fs) as [d1 E1].
  destruct (to_csv (filtration chunk) fs) as [fs' [ex|]]; simpl in *; [by exists d1|].
  destruct (IH rd' fs') as [d2 E2]. exists (d1 ++ d2). by rewrite E2, E1, app_assoc.
Qed.

Lemma step_prefix (ev : event) (s s' : Pool) :
  step ev s = Some s' -> exists data, content (sink s') = content (sink s) ++ data.
Proof.
  intros H. step_cases H; simpl; eauto; exists []; by rewrite app_nil_r.
Qed.

Lemma run_prefix (sched : list event) (s s' : Pool) :
  run sched s = Some s' -> exists data, content (sink s') = content (sink s) ++ data.
Proof.
  revert s. induction sched as [|ev sched IH]; intros s H; simpl in H.
  - simplify_eq. exists []. by rewrite app_nil_r.
  - destruct (step ev s) as [s1|] eqn:E; [|done].
    destruct (step_prefix _ _ _ E) as [d1 E1]. destruct (IH _ H) as [d2 E2].
    exists (d1 ++ d2). by rewrite E2, E1, app_assoc.
Qed.

(** C10. Every variant only appends: whatever the input and whether
    writes fail or not, what the destination held before a run is a prefix
    of what it holds after the single pass, after the chunked run and in
    every state of the pool.  Running a variant twice over a file whose
    lines all coerce, with no failing write, leaves the earlier content
    followed by two copies of the lines of the surviving rows (for the
    pool, each copy in the order of its run). *)
Theorem append_only (W B : nat) (ls : list line) (fs : Sink) :
  (exists data, content (fst (process_single_pass ls fs)) = content fs ++ data)
  /\ (exists data, content (fst (process_chunked B ls fs)) = content fs ++ data)
  /\ (forall s0 sched s, start W B ls fs = inr s0 -> run sched s0 = Some s ->
        exists data, content (sink s) = content fs ++ data)
  /\ (forall rows, ls = map Parsed rows -> faults fs = [] -> 1 <= B ->
        content (fst (process_single_pass ls (fst (process_single_pass ls fs))))
        = content fs ++ render (select keep rows) ++ render (select keep rows)
        /\ content (fst (process_chunked B ls (fst (process_chunked B ls fs))))
           = content fs ++ render (select keep rows) ++ render (select keep rows)
        /\ (forall s0 sched s s0' sched' s',
              start W B ls fs = inr s0 -> run sched s0 = Some s -> finished s = true ->
              start W B ls (sink s) = inr s0' -> run sched' s0' = Some s' ->
              finished s' = true ->
              exists out1 out2,
                content (sink s') = content fs ++ render out1 ++ render out2
                /\ out1 ≡ₚ select keep rows /\ out2 ≡ₚ select keep rows)).
Proof.
  split; [|split; [|split]].
  - unfold process_single_pass. destruct (read_csv ls) as [e|df]; simpl.
    { exists []. by rewrite app_nil_r. }
    destruct (to_csv_prefix (filtration df) fs) as [d E].
    by destruct (to_csv (filtration df) fs) as [fs' [ex|]]; exists d.
  - unfold process_chunked. destruct (read_csv_chunked B ls) as [e|rd].
    { exists []. simpl. by rewrite app_nil_r. }
    apply loop_prefix.
  - intros s0 sched s Hs Hrun. apply start_inv in Hs as (_ & _ & ->).
    by apply run_prefix in Hrun.
  - intros rows -> Hf HB.
    assert (S1 : forall fs', faults fs' = [] ->
              process_single_pass (map Parsed rows) fs'
              = (mkSink (content fs' ++ render (select keep rows)) [], Returned)).
    { intros fs' Hf'. unfold process_single_pass, read_csv. rewrite coerce_parsed.
      rewrite to_csv_ok by done. by rewrite filtration_keep. }
    assert (S2 : forall fs', faults fs' = [] ->
              process_chunked B (map Parsed rows) fs'
              = (mkSink (content fs' ++ render (select keep rows)) [], Returned)).
    { intros fs' Hf'.
      rewrite (process_chunked_batches B _ fs' _ (read_csv_chunked_ok B _ HB)).
      destruct (batches_parsed_concat B rows HB) as [Ec Ee].
      rewrite write_all_ok, Ee, render_chunks_concat, Ec, filtration_keep by done. done. }
    split; [|split].
    + rewrite (S1 fs Hf). simpl. rewrite S1 by done. simpl. by rewrite <- app_assoc.
    + rewrite (S2 fs Hf). simpl. rewrite S2 by done. simpl. by rewrite <- app_assoc.
    + intros s0 sched s s0' sched' s' Hs Hrun Hfin Hs' Hrun' Hfin'.
      destruct (pool_written _ _ _ _ _ _ _ Hf Hs Hrun Hfin) as (Hf1 & out1 & E1 & P1).
      destruct (pool_written _ _ _ _ _ _ _ Hf1 Hs' Hrun' Hfin') as (_ & out2 & E2 & P2).
      destruct (batches_parsed_concat B rows HB) as [Ec _].
      rewrite Ec, filtration_keep in P1, P2.
      exists out1, out2. split; [|done]. by rewrite E2, E1, <- app_assoc.
Qed.

(** ** Further properties of the filters *)

Lemma passes_perm (ps ps' : list Predicate) (r : Row) :
  ps ≡ₚ ps' -> passes ps r = passes ps' r.
Proof.
  induction 1 as [|p ps ps' _ IH|p q ps|ps ps' ps'' _ IH1 _ IH2]; simpl.
  - done.
  - by rewrite IH.
  - by destruct (p r), (q r).
  - by etransitivity.
Qed.

(** X1. The order of the predicates of a chain does not change what the
    chain keeps: two chains with the same predicates in any order select
    the same rows, in the same order. *)
Theorem chain_order_irrelevant (ps ps' : list Predicate) (batch : DataFrame) :
  ps ≡ₚ ps' -> apply_chain ps batch = apply_chain ps' batch.
Proof.
  intros P. rewrite !apply_chain_select. apply select_ext.
  intros r. by apply passes_perm.
Qed.

Lemma select_all (p : Predicate) (df : DataFrame) :
  select p df = df <-> Forall (fun r => p r = true) df.
Proof.
  unfold select. induction df as [|r df IH]; simpl.
  - split; [constructor | done].
  - destruct (p r) eqn:E.
    + split.
      * intros [= H]. constructor; [done | by apply IH].
      * inversion 1; subst. f_equal. by apply IH.
    + split.
      * intros H. exfalso.
        pose proof (select_sublist p df) as S. unfold select in S.
        rewrite H in S. apply sublist_length in S. simpl in S. lia.
      * inversion 1; congruence.
Qed.

(** X2. Filtering is idempotent and only removes rows: a chain applied to
    its own output changes nothing, the output is never longer than the
    batch, and a batch is left as it is exactly when each of its rows
    passes every predicate. *)
Theorem chain_idempotent (ps : list Predicate) (batch : DataFrame) :
  apply_chain ps (apply_chain ps batch) = apply_chain ps batch
  /\ length (apply_chain ps batch) <= length batch
  /\ (apply_chain ps batch = batch <-> Forall (fun r => passes ps r = true) batch)
  /\ filtration (filtration batch) = filtration batch.
Proof.
  assert (I : forall p df, select p (select p df) = select p df).
  { intros p df. rewrite select_select. apply select_ext. intros r. by destruct (p r). }
  split; [by rewrite !apply_chain_select|].
  split; [rewrite apply_chain_select; apply sublist_length, select_sublist|].
  split; [rewrite apply_chain_select; apply select_all|].
  by rewrite !filtration_keep.
Qed.

(** ** Further properties of the sequential variants *)





(** ** Further properties of the pool *)

Lemma run_workers_length (sched : list event) (s s' : Pool) :
  run sched s = Some s' -> length (workers s') = length (workers s).
Proof.
  revert s. induction sched as [|ev sched IH]; intros s H; simpl in H.
  - by simplify_eq.
  - destruct (step ev s) as [s1|] eqn:E; [|done].
    rewrite (IH _ H). by eapply step_workers_length.
Qed.

(** X6. While no write fails the pool cannot deadlock: in every reachable
    state that is not finished some action is enabled, and from every
    reachable state some schedule leads to a finished state, so
    [pool.join()] can return. *)
Theorem pool_never_deadlocks (W B : nat) (ls : list line) (fs : Sink) (s0 : Pool)
    (sched : list event) (s : Pool) :
  faults fs = [] -> start W B ls fs = inr s0 -> run sched s0 = Some s ->
  (finished s = false -> exists ev s', step ev s = Some s')
  /\ (exists sched' s', run sched' s = Some s' /\ finished s' = true).
Proof.
  intros Hf Hs Hrun.
  pose proof (run_exclusive _ _ _ (start_exclusive _ _ _ _ _ Hs) Hrun) as He.
  pose proof (run_consistent _ _ _ _ _ (start_exclusive _ _ _ _ _ Hs)
                (start_consistent _ _ _ _ _ Hf Hs) Hrun) as Hc.
  assert (HW : 1 <= length (workers s)).
  { rewrite (run_workers_length _ _ _ Hrun).
    apply start_inv in Hs as (HW & _ & ->). simpl. by rewrite length_replicate. }
  split.
  - intros Hfin. by eapply progress.
  - by eapply (finish_exists _ _ (cost s)).
Qed.

Lemma run_cost (sched : list event) (s s' : Pool) :
  reader_ok (main s) -> run sched s = Some s' -> length sched + cost s' <= cost s.
Proof.
  revert s. induction sched as [|ev sched IH]; intros s Hr H; simpl in H.
  - simplify_eq. simpl. lia.
  - destruct (step ev s) as [s1|] eqn:E; [|done].
    pose proof (step_cost _ _ _ Hr E).
    pose proof (IH s1 (step_reader_ok _ _ _ Hr E) H). simpl. lia.
Qed.

Lemma step_cost_exact (c0 : list byte) (all : list DataFrame) (ev : event) (s s' : Pool) :
  consistent c0 all s -> step ev s = Some s' -> cost s = S (cost s').
Proof.
  intros (Hf & Hr & Hn & _) H. unfold cost. step_cases H; simpl; simpl in Hr;
    try (exfalso; eapply no_fault_lookup; eauto; fail);
    try match goal with Hk : workers s !! ?k = Some ?w |- context [<[?k := ?w']> _] =>
      pose proof (sum_insert worker_cost (workers s) k w w' Hk) as P; simpl in P end;
    unfold block_cost in *; try lia.
  - match goal with E : next _ = _ |- _ =>
      destruct (batches_yield _ _ _ Hr E) as [-> _] end.
    rewrite map_app, list_sum_app. simpl. lia.
  - match goal with E : next _ = _ |- _ =>
      destruct (batches_stop _ E) as [-> _] end. simpl. lia.
  - match goal with E : next _ = _ |- _ =>
      destruct (batches_raise _ _ E) as [-> _] end. simpl. lia.
Qed.

Lemma run_cost_exact (c0 : list byte) (all : list DataFrame) (sched : list event)
    (s s' : Pool) :
  exclusive s -> consistent c0 all s -> run sched s = Some s' ->
  cost s = length sched + cost s'.
Proof.
  revert s. induction sched as [|ev sched IH]; intros s He Hc H; simpl in H.
  - by simplify_eq.
  - destruct (step ev s) as [s1|] eqn:E; [|done].
    rewrite (step_cost_exact _ _ _ _ _ Hc E).
    rewrite (IH s1 (exclusive_step _ _ _ He E) (consistent_step _ _ _ _ _ He Hc E) H).
    done.
Qed.

Lemma all_idle_cost (ws : list worker) :
  forallb is_idle ws = true -> list_sum (map worker_cost ws) = 0.
Proof.
  induction ws as [|w ws IH]; [done|]. simpl. intros H.
  apply andb_prop in H as [H0 H]. destruct w; try done. simpl. by apply IH.
Qed.

Lemma finished_cost (s : Pool) : finished s = true -> cost s = 0.
Proof.
  unfold finished, cost. intros H.
  apply andb_prop in H as [H Hidle]. apply andb_prop in H as [Hm Ht].
  apply bool_decide_eq_true in Ht. rewrite Ht, all_idle_cost by done.
  by destruct (main s).
Qed.

Lemma replicate_idle_cost (W : nat) : list_sum (map worker_cost (replicate W Idle)) = 0.
Proof. induction W as [|W IH]; simpl; done. Qed.

(** X7. Every run of the pool is finite: a schedule from the start has at
    most one action for the end of the iterator plus, for each batch, four
    actions (submit, take, acquire, release) and one per byte of its
    block; while no write fails every schedule that reaches a finished
    state has exactly that many actions. *)
Theorem pool_runs_are_bounded (W B : nat) (ls : list line) (fs : Sink) (s0 : Pool)
    (sched : list event) (s : Pool) :
  start W B ls fs = inr s0 -> run sched s0 = Some s ->
  cost s0 = 1 + list_sum (map (fun chunk => 4 + length (render (filtration chunk)))
                              (batches (mkReader B ls true)))
  /\ length sched <= cost s0
  /\ (faults fs = [] -> finished s = true -> length sched = cost s0).
Proof.
  intros Hs Hrun.
  pose proof (start_exclusive _ _ _ _ _ Hs) as He.
  destruct (start_inv _ _ _ _ _ Hs) as (HW & HB & E0).
  assert (Hr : reader_ok (main s0)) by (by subst s0).
  split; [|split].
  - subst s0. unfold cost. simpl. rewrite replicate_idle_cost.
    unfold block_cost. lia.
  - pose proof (run_cost _ _ _ Hr Hrun). lia.
  - intros Hf Hfin.
    pose proof (run_cost_exact _ _ _ _ _ He (start_consistent _ _ _ _ _ Hf Hs) Hrun) as E.
    rewrite (finished_cost _ Hfin) in E. lia.
Qed.

(** *** After a failed write *)

Lemma raise_jams (k : nat) (s s1 : Pool) :
  exclusive s -> step (EvRaise k) s = Some s1 ->
  jammed s1 /\ content (sink s1) = content (sink s).
Proof.
  intros [U L] H. step_cases H; (split; [|done]); split; simpl.
  all: try (by eapply L).
  all: intros j w Hj; destruct (is_writing w) eqn:Ew; [|done];
       apply list_lookup_insert_Some in Hj as [(<- & <- & _)|[Nj Hj]]; [done|];
       exfalso; apply Nj; eapply U; eauto; done.
Qed.

Lemma jammed_step (ev : event) (s s' : Pool) :
  reader_ok (main s) -> jammed s -> step ev s = Some s' ->
  jammed s'
  /\ content (sink s') = content (sink s)
  /\ in_flight s' + length (future (main s')) = in_flight s + length (future (main s)).
Proof.
  intros Hr [Hl Hw] H. unfold in_flight, jammed.
  step_cases H; simpl; simpl in Hr;
    try match goal with Hk : workers s !! _ = Some (Writing _ _ _ _) |- _ =>
      by pose proof (Hw _ _ Hk) end;
    try congruence.
  - match goal with E : next _ = _ |- _ =>
      destruct (batches_yield _ _ _ Hr E) as [-> _] end.
    rewrite length_app. simpl. split; [done|]. split; [done | lia].
  - match goal with E : next _ = _ |- _ =>
      destruct (batches_stop _ E) as [-> _] end. done.
  - match goal with E : next _ = _ |- _ =>
      destruct (batches_raise _ _ E) as [-> _] end. done.
  - match goal with Hk : workers s !! ?k = Some ?w |- context [<[?k := ?w']> _] =>
      pose proof (count_insert (fun x => negb (is_idle x)) (workers s) k w w' Hk) as P;
      simpl in P end.
    split; [|split; [done | lia]].
    split; [done|]. intros j w Hj.
    apply list_lookup_insert_Some in Hj as [(<- & <- & _)|[Nj Hj]]; [done | by eapply Hw].
Qed.

Lemma jammed_run (sched : list event) (s s' : Pool) :
  reader_ok (main s) -> jammed s -> run sched s = Some s' ->
  jammed s'
  /\ content (sink s') = content (sink s)
  /\ in_flight s' + length (future (main s')) = in_flight s + length (future (main s)).
Proof.
  revert s. induction sched as [|ev sched IH]; intros s Hr Hj H; simpl in H.
  - by simplify_eq.
  - destruct (step ev s) as [s1|] eqn:E; [|done].
    destruct (jammed_step _ _ _ Hr Hj E) as (Hj1 & Ec1 & En1).
    destruct (IH s1 (step_reader_ok _ _ _ Hr E) Hj1 H) as (Hj' & Ec' & En').
    split; [done|]. split; congruence.
Qed.

Lemma all_idle_busy (ws : list worker) :
  forallb is_idle ws = true -> List.filter (fun w => negb (is_idle w)) ws = [].
Proof.
  induction ws as [|w ws IH]; [done|]. simpl. intros H.
  apply andb_prop in H as [H0 H]. rewrite H0. simpl. by apply IH.
Qed.

Lemma in_flight_not_finished (s : Pool) :
  0 < in_flight s + length (future (main s)) -> finished s = false.
Proof.
  intros H. destruct (finished s) eqn:F; [|done]. exfalso.
  unfold finished in F.
  apply andb_prop in F as [F Hidle]. apply andb_prop in F as [Hm Ht].
  apply bool_decide_eq_true in Ht.
  unfold in_flight in H. rewrite Ht, all_idle_busy in H by done.
  destruct (main s); simpl in *; [done | lia | lia].
Qed.

(** X8. A failed write in the pool blocks everything after it: once a
    worker's [to_csv] has raised, in every later state the lock is still
    held, no worker is inside [to_csv], the destination keeps the bytes it
    had, and no batch in flight or still to come is ever completed; if
    any is left, the run never reaches a finished state. *)
Theorem failed_write_jams_pool (W B : nat) (ls : list line) (fs : Sink) (s0 : Pool)
    (sched : list event) (k : nat) (s s1 : Pool) (sched' : list event) (s' : Pool) :
  start W B ls fs = inr s0 -> run sched s0 = Some s ->
  step (EvRaise k) s = Some s1 -> run sched' s1 = Some s' ->
  lock s' = true
  /\ writers s' = 0
  /\ content (sink s') = content (sink s)
  /\ in_flight s' + length (future (main s')) = in_flight s1 + length (future (main s1))
  /\ (0 < in_flight s1 + length (future (main s1)) -> finished s' = false).
Proof.
  intros Hs Hrun Hraise Hrun'.
  pose proof (run_exclusive _ _ _ (start_exclusive _ _ _ _ _ Hs) Hrun) as He.
  destruct (start_inv _ _ _ _ _ Hs) as (HW & HB & E0).
  assert (Hr : reader_ok (main s)).
  { eapply run_reader_ok; [|exact Hrun]. by subst s0. }
  destruct (raise_jams _ _ _ He Hraise) as [Hj Ec].
  destruct (jammed_run _ _ _ (step_reader_ok _ _ _ Hr Hraise) Hj Hrun')
    as ([Hl Hw] & Ec' & En).
  split; [done|]. split.
  { unfold writers. by rewrite no_writer_count. }
  split; [congruence|]. split; [done|].
  intros Hpos. apply in_flight_not_finished. lia.
Qed.

(** *** The numbers of [enumerate] *)

Lemma drop_head {A : Type} (l : list A) (i : nat) (x : A) (r : list A) :
  drop i l = x :: r -> l !! i = Some x /\ drop (S i) l = r.
Proof.
  intros E. split.
  - pose proof (lookup_drop l i 0) as L. rewrite E in L. simpl in L.
    rewrite Nat.add_0_r in L. done.
  - replace (S i) with (i + 1) by lia. rewrite <- drop_drop, E. done.
Qed.

Lemma numbered_step (all : list DataFrame) (ev : event) (s s' : Pool) :
  numbered all s -> step ev s = Some s' -> numbered all s'.
Proof.
  intros (Ht & Hw & Hm) H. destruct ev as [|k|k|k|k|k].
  - step_cases H; unfold numbered; simpl; simpl in Hm; [|done|done].
    destruct Hm as [HB Hd].
    match goal with E : next _ = _ |- _ =>
      destruct (batches_yield _ _ _ HB E) as [Eb _];
      pose proof (next_chunksize _ _ _ E) as HB' end.
    rewrite Eb in Hd. apply drop_head in Hd as [Hi Hd].
    split; [|split; [done|]].
    + apply Forall_app. split; [done|]. by repeat constructor.
    + split; [lia | done].
  - step_cases H; unfold numbered; simpl.
    all: apply Forall_cons in Ht as [Ht1 Ht2].
    all: split; [done|]; split; [|done].
    all: apply Forall_insert; [done|]; by repeat constructor.
  - step_cases H; unfold numbered; simpl.
    all: match goal with Hk : workers _ !! _ = Some _ |- _ =>
           pose proof (Forall_lookup_1 _ _ _ _ Hw Hk) as Hwk; simpl in Hwk end.
    all: split; [done|]; split; [|done].
    all: by apply Forall_insert.
  - step_cases H; unfold numbered; simpl.
    all: match goal with Hk : workers _ !! _ = Some _ |- _ =>
           pose proof (Forall_lookup_1 _ _ _ _ Hw Hk) as Hwk; simpl in Hwk end.
    all: split; [done|]; split; [|done].
    all: by apply Forall_insert.
  - step_cases H; unfold numbered; simpl.
    all: split; [done|]; split; [|done].
    all: apply Forall_insert; [done | constructor].
  - step_cases H; unfold numbered; simpl.
    all: split; [done|]; split; [|done].
    all: apply Forall_insert; [done | constructor].
Qed.

Lemma numbered_run (all : list DataFrame) (sched : list event) (s s' : Pool) :
  numbered all s -> run sched s = Some s' -> numbered all s'.
Proof.
  revert s. induction sched as [|ev sched IH]; intros s Hn H; simpl in H.
  - by simplify_eq.
  - destruct (step ev s) as [s1|] eqn:E; [|done].
    eapply IH; [|exact H]. by eapply numbered_step.
Qed.

(** X9. The number [enumerate] gives a chunk stays with it: in every
    reachable state of the pool a task numbered [i], whether queued or in
    the hands of a worker, holds the batch at position [i] of the file,
    and while the main process is in its loop with counter [i] the first
    [i] batches have been handed over and the iterator has the others
    left. *)
Theorem enumerate_numbers_batches (W B : nat) (ls : list line) (fs : Sink) (s0 : Pool)
    (sched : list event) (s : Pool) :
  start W B ls fs = inr s0 -> run sched s0 = Some s ->
  (forall chunk i, In (chunk, i) (tasks s) ->
     batches (mkReader B ls true) !! i = Some chunk)
  /\ (forall k w chunk i, workers s !! k = Some w -> In (chunk, i) (task_of w) ->
        batches (mkReader B ls true) !! i = Some chunk)
  /\ (forall rd i, main s = Submitting rd i ->
        drop i (batches (mkReader B ls true)) = batches rd).
Proof.
  intros Hs Hrun. destruct (start_inv _ _ _ _ _ Hs) as (HW & HB & E0).
  assert (H0 : numbered (batches (mkReader B ls true)) s0).
  { subst s0. split; simpl; [constructor|]. split; [|by split].
    apply Forall_replicate. constructor. }
  destruct (numbered_run _ _ _ _ H0 Hrun) as (Ht & Hw & Hm).
  split; [|split].
  - intros chunk i Hin. apply list_elem_of_In in Hin.
    exact (proj1 (Forall_forall _ _) Ht _ Hin).
  - intros k w chunk i Hk Hin. apply list_elem_of_In in Hin.
    pose proof (Forall_lookup_1 _ _ _ _ Hw Hk) as Hwk.
    exact (proj1 (Forall_forall _ _) Hwk _ Hin).
  - intros rd i Em. rewrite Em in Hm. by destruct Hm.
Qed.

(** *** A pool of one worker *)

Lemma in_order_step (c0 : list byte) (all : list DataFrame) (ev : event) (s s' : Pool) :
  in_order c0 all s -> step ev s = Some s' -> in_order c0 all s'.
Proof.
  intros (Hf & Hr & w & done & pre & Ew & Hn & Hc & Ho & Hp) H.
  unfold in_order. revert Ho.
  step_cases H; intros Ho; simpl; simpl in Hr, Ho;
    try match goal with Hk : workers s !! ?k = Some _ |- _ =>
      rewrite Ew in Hk; destruct k as [|k]; simpl in Hk; [|done]; simplify_eq;
      rewrite Ew; simpl
    end;
    unfold written_part in Hp; simpl in Hn;
    try done.
  - match goal with E : next _ = _ |- _ =>
      destruct (batches_yield _ _ _ Hr E) as [Eb _];
      pose proof (next_chunksize _ _ _ E) as HB' end.
    rewrite Eb in Ho. split; [done|]. split; [lia|].
    exists w, done, pre. do 3 (split; [done|]). split; [|done].
    rewrite <- Ho, map_app, <- !app_assoc. done.
  - match goal with E : next _ = _ |- _ => destruct (batches_stop _ E) as [Eb _] end.
    rewrite Eb in Ho. do 2 (split; [done|]). by exists w, done, pre.
  - match goal with E : next _ = _ |- _ => destruct (batches_raise _ _ E) as [Eb _] end.
    rewrite Eb in Ho. do 2 (split; [done|]). by exists w, done, pre.
  - do 2 (split; [done|]).
    match goal with |- context [Running ?c ?i] => exists (Running c i), done, pre end.
    done.
  - match goal with Hk : pop_fault _ = _ |- _ =>
      unfold pop_fault in Hk; rewrite Hf in Hk; simplify_eq end.
    do 2 (split; [done|]).
    match goal with |- context [Writing ?c ?i ?r None] =>
      exists (Writing c i r None), done, [] end.
    done.
  - do 2 (split; [done|]).
    match goal with |- context [Writing ?c ?i ?r None :: _] =>
      exists (Writing c i r None), done end.
    match goal with |- context [content (sink s) ++ [?b]] => exists (pre ++ [b]) end.
    do 2 (split; [done|]). split; [by rewrite Hc, <- !app_assoc|].
    split; [done|]. unfold written_part. by rewrite <- Hp, <- app_assoc.
  - do 2 (split; [done|]).
    match goal with E : workers s = [Writing ?c _ _ _] |- _ =>
      exists Idle, (done ++ [c]), [] end.
    rewrite app_nil_r in Hp. subst pre.
    do 2 (split; [done|]). split.
    + rewrite Hc, render_chunks_app. unfold render_chunks at 3. simpl.
      by rewrite !app_nil_r.
    + split; [|done]. by rewrite <- !app_assoc.
Qed.

Lemma in_order_run (c0 : list byte) (all : list DataFrame) (sched : list event)
    (s s' : Pool) :
  in_order c0 all s -> run sched s = Some s' -> in_order c0 all s'.
Proof.
  revert s. induction sched as [|ev sched IH]; intros s Hi H; simpl in H.
  - by simplify_eq.
  - destruct (step ev s) as [s1|] eqn:E; [|done].
    eapply IH; [|exact H]. by eapply in_order_step.
Qed.

(** X10. A pool of one worker is the sequential run: with
    [Pool(processes=1)] and no failing write, the destination holds at
    every moment the blocks of the first batches in file order, and every
    schedule that reaches a finished state leaves exactly the bytes the
    chunked loop leaves. *)
Theorem single_worker_is_sequential (B : nat) (ls : list line) (fs : Sink) (s0 : Pool)
    (sched : list event) (s : Pool) :
  faults fs = [] -> start 1 B ls fs = inr s0 -> run sched s0 = Some s ->
  (exists n pre,
      content (sink s)
      = content fs ++ render_chunks (take n (batches (mkReader B ls true))) ++ pre
      /\ (forall chunk, batches (mkReader B ls true) !! n = Some chunk ->
            exists rest, pre ++ rest = render (filtration chunk))
      /\ (batches (mkReader B ls true) !! n = None -> pre = []))
  /\ (finished s = true ->
        content (sink s) = content (fst (process_chunked B ls fs))).
Proof.
  intros Hf Hs Hrun. destruct (start_inv _ _ _ _ _ Hs) as (_ & HB & E0).
  assert (H0 : in_order (content fs) (batches (mkReader B ls true)) s0).
  { subst s0. split; [done|]. split; [done|]. exists Idle, [], []. simpl.
    by rewrite app_nil_r. }
  destruct (in_order_run _ _ _ _ _ H0 Hrun)
    as (Hf' & Hr & w & done & pre & Ew & Hn & Hc & Ho & Hp).
  split.
  - exists (length done), pre. rewrite <- Ho at 1.
    rewrite take_app_length. split; [done|].
    rewrite <- Ho. split.
    + intros chunk Hl. rewrite lookup_app_r in Hl by lia.
      rewrite Nat.sub_diag in Hl.
      unfold written_part in Hp.
      destruct w as [|c i|c i rest f]; simpl in Hl.
      * subst pre. by eexists.
      * subst pre. by eexists.
      * simplify_eq. by exists rest.
    + intros Hl. apply lookup_ge_None in Hl. rewrite !length_app in Hl.
      unfold written_part in Hp.
      destruct w as [|c i|c i rest f]; simpl in Hl; [done | lia | lia].
  - intros Hfin. unfold finished in Hfin.
    apply andb_prop in Hfin as [Hfin Hidle]. apply andb_prop in Hfin as [Hm Ht].
    apply bool_decide_eq_true in Ht. rewrite Ew in Hidle. simpl in Hidle.
    unfold written_part in Hp.
    destruct w; try done. subst pre. simpl in Ho. rewrite Ht in Ho. simpl in Ho.
    assert (future (main s) = []) as Efut by (by destruct (main s)).
    rewrite Efut, app_nil_r in Ho. subst done.
    rewrite (process_chunked_batches B ls fs _ (read_csv_chunked_ok B ls HB)).
    rewrite write_all_ok by done.
    rewrite Hc, app_nil_r. by destruct (outcome_of _).
Qed.

(** ** Column names and dtypes *)

Lemma col_name_inj (i j : nat) : col_name i = col_name j -> i = j.
Proof.
  unfold col_name. intros E. simpl in E. injection E as E.
  by apply (inj pretty).
Qed.

Lemma cols_lookup (n i : nat) :
  cols n !! i = if decide (i < n + 2) then Some (col_name i) else None.
Proof.
  unfold cols. change (map col_name ?l) with (col_name <$> l).
  rewrite list_lookup_fmap. case_decide as H.
  - by rewrite lookup_seq_lt.
  - by rewrite lookup_seq_ge by lia.
Qed.

Lemma cols_NoDup (n : nat) : NoDup (cols n).
Proof.
  unfold cols. change (map col_name ?l) with (col_name <$> l).
  apply NoDup_fmap_2; [|apply NoDup_seq].
  intros i j. apply col_name_inj.
Qed.

Lemma dict_acc_absent {V : Type} (pairs : list (string * V)) (m : gmap string V)
    (key : string) :
  key ∉ pairs.*1 ->
  fold_left (fun m kv => <[kv.1 := kv.2]> m) pairs m !! key = m !! key.
Proof.
  revert m. induction pairs as [|[k v] pairs IH]; intros m Hk; simpl; [done|].
  rewrite fmap_cons in Hk. apply not_elem_of_cons in Hk as [Hne Hk].
  rewrite IH by done. simpl. by rewrite lookup_insert_ne.
Qed.

Lemma dict_acc_present {V : Type} (pairs : list (string * V)) (m : gmap string V)
    (key : string) (v : V) :
  NoDup pairs.*1 -> (key, v) ∈ pairs ->
  fold_left (fun m kv => <[kv.1 := kv.2]> m) pairs m !! key = Some v.
Proof.
  revert m. induction pairs as [|[k v'] pairs IH]; intros m Hnd Hin; simpl.
  { by apply elem_of_nil in Hin. }
  rewrite fmap_cons in Hnd. apply NoDup_cons in Hnd as [Hk Hnd].
  apply elem_of_cons in Hin as [E|Hin].
  - simplify_eq. rewrite dict_acc_absent by done. simpl. by rewrite lookup_insert_eq.
  - by apply IH.
Qed.

Lemma layout_lookup (k j : nat) :
  layout (2 * k) !! j ≫= fitting
  = if decide (j < 2) then None
    else if decide (j < 2 + k) then Some int32
    else if decide (j < 2 + 2 * k) then Some float32
    else None.
Proof.
  unfold layout. rewrite (Nat.mul_comm 2 k), Nat.div_mul by lia.
  destruct j as [|[|j]]; [done|done|]. simpl.
  repeat case_decide; try lia.
  - rewrite lookup_app_l by (rewrite length_replicate; lia).
    rewrite lookup_replicate_2 by lia. done.
  - rewrite lookup_app_r by (rewrite length_replicate; lia).
    rewrite length_replicate, lookup_replicate_2 by lia. done.
  - rewrite lookup_ge_None_2; [done|].
    rewrite length_app, !length_replicate. lia.
Qed.

(** X11. The declared dtypes fit the generated file column by column:
    with [k] integer and [k] float columns after the text and the date
    column, the dictionary gives [int32] to exactly the columns made from
    [int_rows], [float32] to exactly those made from [float_rows], and
    nothing to [col_0], [col_1] or any other name; in the notebook
    ([k = 50]) the columns the filters compare with numbers, [col_2] and
    [col_3], are [int32] and [col_100] is [float32]. *)
Theorem dtypes_fit_layout (k j : nat) :
  dtypes_of (cols (2 * k)) k !! col_name j = layout (2 * k) !! j ≫= fitting
  /\ dtypes !! col_name j = layout ncols !! j ≫= fitting
  /\ dtypes !! "col_0" = None /\ dtypes !! "col_1" = None
  /\ dtypes !! "col_2" = Some int32 /\ dtypes !! "col_3" = Some int32
  /\ dtypes !! "col_100" = Some float32.
Proof.
  assert (G : forall k j,
             dtypes_of (cols (2 * k)) k !! col_name j = layout (2 * k) !! j ≫= fitting).
  { clear k j. intros k j. rewrite layout_lookup.
    unfold dtypes_of, dict.
    set (vals := replicate k int32 ++ replicate k float32).
    assert (Hlen : length (drop 2 (cols (2 * k))) = length vals).
    { unfold vals, cols. rewrite length_drop, length_map, length_seq, length_app,
        !length_replicate. lia. }
    assert (Hfst : (zip (drop 2 (cols (2 * k))) vals).*1 = drop 2 (cols (2 * k))).
    { apply fst_zip. lia. }
    assert (Hnd : NoDup (zip (drop 2 (cols (2 * k))) vals).*1).
    { rewrite Hfst. apply (NoDup_app (take 2 (cols (2 * k)))).
      rewrite take_drop. apply cols_NoDup. }
    assert (Hin : forall v, 2 <= j -> vals !! (j - 2) = Some v ->
                  (col_name j, v) ∈ zip (drop 2 (cols (2 * k))) vals).
    { intros v Hj Hv. apply list_elem_of_lookup. exists (j - 2).
      rewrite lookup_zip_with, lookup_drop, cols_lookup, Hv.
      apply lookup_lt_Some in Hv. rewrite <- Hlen in Hv.
      unfold cols in Hv. rewrite length_drop, length_map, length_seq in Hv.
      replace (2 + (j - 2)) with j by lia. rewrite decide_True by lia. done. }
    repeat case_decide.
    - rewrite dict_acc_absent; [apply lookup_empty|]. rewrite Hfst. intros Hel.
      apply list_elem_of_lookup in Hel as [i Hi].
      rewrite lookup_drop, cols_lookup in Hi. case_decide; [|done].
      assert (E : col_name (2 + i) = col_name j) by congruence.
      apply col_name_inj in E. lia.
    - apply dict_acc_present; [done|]. apply Hin; [lia|].
      unfold vals. rewrite lookup_app_l by (rewrite length_replicate; lia).
      by rewrite lookup_replicate_2 by lia.
    - apply dict_acc_present; [done|]. apply Hin; [lia|].
      unfold vals. rewrite lookup_app_r by (rewrite length_replicate; lia).
      rewrite length_replicate. by rewrite lookup_replicate_2 by lia.
    - rewrite dict_acc_absent; [apply lookup_empty|]. rewrite Hfst. intros Hel.
      apply list_elem_of_lookup in Hel as [i Hi].
      rewrite lookup_drop, cols_lookup in Hi. case_decide; [|done].
      assert (E : col_name (2 + i) = col_name j) by congruence.
      apply col_name_inj in E. lia. }
  split; [apply G|].
  assert (G50 : forall j, dtypes !! col_name j = layout ncols !! j ≫= fitting).
  { intros j'. exact (G 50 j'). }
  split; [apply G50|].
  split; [exact (G50 0)|]. split; [exact (G50 1)|].
  split; [exact (G50 2)|]. split; [exact (G50 3)|]. exact (G50 100).
Qed.

End Pipeline.

(** ** Two runs over the same input *)

(** C8. Sequential mode is a function of the input and the configuration:
    two runs against a fresh empty destination end in the same state, the
    destination holding the lines of the surviving rows of the batches in
    input order, byte for byte, and the run ends (it returns or raises).  Two finished runs of the pool against a
    fresh destination hold the lines of the same rows up to a permutation,
    and the order can differ: with two workers and two batches of one row,
    either block can come first. *)
Theorem rerun_determinism :
  (forall format_row B ls run1 run2,
      run1 = process_chunked format_row B ls fresh ->
      run2 = process_chunked format_row B ls fresh ->
      run1 = run2)
  /\ (forall format_row B ls, 1 <= B ->
        content (fst (process_chunked format_row B ls fresh))
        = render format_row (filtration (concat (batches (mkReader B ls true))))
        /\ snd (process_chunked format_row B ls fresh) <> OutOfFuel)
  /\ (forall format_row W B ls s0 sched1 s1 sched2 s2,
        start W B ls fresh = inr s0 ->
        run format_row sched1 s0 = Some s1 -> finished s1 = true ->
        run format_row sched2 s0 = Some s2 -> finished s2 = true ->
        exists out1 out2,
          content (sink s1) = render format_row out1
          /\ content (sink s2) = render format_row out2
          /\ out1 ≡ₚ out2)
  /\ (exists s0 s1 s2,
        start 2 1 [Parsed row_a; Parsed row_c] fresh = inr s0
        /\ run first_column_line (two_writers 0 1 7 7) s0 = Some s1
        /\ finished s1 = true
        /\ run first_column_line (two_writers 1 0 7 7) s0 = Some s2
        /\ finished s2 = true
        /\ content (sink s1) = first_column_line row_a ++ first_column_line row_c
        /\ content (sink s2) = first_column_line row_c ++ first_column_line row_a
        /\ content (sink s1) <> content (sink s2)).
Proof.
  split; [|split; [|split]].
  - intros format_row B ls run1 run2 -> ->. reflexivity.
  - intros format_row B ls HB.
    rewrite (process_chunked_batches format_row B ls fresh _ (read_csv_chunked_ok B ls HB)).
    rewrite write_all_ok by done. simpl. split; [by rewrite render_chunks_concat|].
    pose proof (batches_end_finished (mkReader B ls true) HB) as Hfin.
    by destruct (batches_end _).
  - intros format_row W B ls s0 sched1 s1 sched2 s2 Hs R1 F1 R2 F2.
    destruct (pool_written format_row W B ls fresh s0 sched1 s1 eq_refl Hs R1 F1)
      as (_ & o1 & E1 & P1).
    destruct (pool_written format_row W B ls fresh s0 sched2 s2 eq_refl Hs R2 F2)
      as (_ & o2 & E2 & P2).
    exists o1, o2. split; [exact E1|]. split; [exact E2|].
    by rewrite P1, P2.
  - eexists. eexists. eexists.
    split; [reflexivity|]. split; [vm_compute; reflexivity|].
    split; [vm_compute; reflexivity|]. split; [vm_compute; reflexivity|].
    split; [vm_compute; reflexivity|]. split; [vm_compute; reflexivity|].
    split; [vm_compute; reflexivity|]. vm_compute. discriminate.
Qed.

(** ** Concrete runs *)

Example filtration_rows :
  filtration [row_a; row_b; row_c; row_d; row_e; row_f] = [row_a; row_c; row_f].
Proof. vm_compute. reflexivity. Qed.

Example batches_of_two :
  batches (mkReader 2 (map Parsed [row_a; row_b; row_c; row_d; row_e]) true)
  = [[row_a; row_b]; [row_c; row_d]; [row_e]].
Proof. vm_compute. reflexivity. Qed.

Example batches_exact_multiple :
  batches (mkReader 2 (map Parsed [row_a; row_b; row_c; row_d]) true)
  = [[row_a; row_b]; [row_c; row_d]].
Proof. vm_compute. reflexivity. Qed.

Example chunked_run :
  process_chunked first_column_line 2
    (map Parsed [row_a; row_b; row_c; row_d; row_e; row_f]) fresh
  = (mkSink (first_column_line row_a ++ first_column_line row_c ++ first_column_line row_f) [],
     Returned).
Proof. vm_compute. reflexivity. Qed.

(** C2, counterexample.  Five data lines in chunks of two, the third with
    [abc] in [col_2]: the iterator yields one batch and then raises, where
    [ceil(5/2)] is 3. *)
Lemma batch_count_with_bad_line :
  read_csv_chunked 2 [Parsed row_a; Parsed row_b; bad_line; Parsed row_d; Parsed row_e]
  = inr (mkReader 2 [Parsed row_a; Parsed row_b; bad_line; Parsed row_d; Parsed row_e] true)
  /\ batches (mkReader 2 [Parsed row_a; Parsed row_b; bad_line; Parsed row_d; Parsed row_e] true)
     = [[row_a; row_b]]
  /\ batches_end (mkReader 2 [Parsed row_a; Parsed row_b; bad_line; Parsed row_d; Parsed row_e] true)
     = Failed ValueError
  /\ length [Parsed row_a; Parsed row_b; bad_line; Parsed row_d; Parsed row_e] = 5
  /\ (5 + 2 - 1) / 2 = 3.
Proof. repeat split; vm_compute; reflexivity. Qed.

(** Five rows in chunks of two: three batches of sizes 2, 2 and 1. *)
Lemma batch_sizing_witness :
  1 <= 2 /\ [row_a; row_b; row_c; row_d; row_e] <> []
  /\ exists rd bs,
       read_csv_chunked 2 (map Parsed [row_a; row_b; row_c; row_d; row_e]) = inr rd
       /\ batches rd = bs
       /\ batches_end rd = Exhausted
       /\ length bs = (length [row_a; row_b; row_c; row_d; row_e] + 2 - 1) / 2
       /\ (length bs - 1) * 2 < length [row_a; row_b; row_c; row_d; row_e] <= length bs * 2
       /\ (forall i b, bs !! i = Some b -> i + 1 < length bs -> length b = 2)
       /\ (forall b, last bs = Some b ->
             length b = length [row_a; row_b; row_c; row_d; row_e] - (length bs - 1) * 2
             /\ 1 <= length b <= 2)
       /\ Forall (fun b => b <> []) bs
       /\ concat bs = [row_a; row_b; row_c; row_d; row_e].
Proof.
  split; [lia|]. split; [done|].
  apply (batch_sizing 2 [row_a; row_b; row_c; row_d; row_e]); [lia | done].
Defined.



(** C4, counterexample.  In the pool the first write raises: the lock is
    never released, the second worker waits for it for ever, and the main
    process stays in [pool.join()]: the run is not finished, no action is
    enabled any more, and no exception has reached the caller. *)
Lemma pool_write_failure_hangs :
  exists s0 s,
    start processes 1 [Parsed row_a; Parsed row_c] (mkSink [] [Some 0]) = inr s0
    /\ run first_column_line failing_writer s0 = Some s
    /\ main s = Joining
    /\ lock s = true
    /\ workers s = [Idle; Running [row_c] 1; Idle]
    /\ content (sink s) = []
    /\ finished s = false
    /\ (forall ev, step first_column_line ev s = None).
Proof.
  eexists. eexists. split; [reflexivity|]. split; [vm_compute; reflexivity|].
  do 5 (split; [reflexivity|]).
  intros [|k|k|k|k|k]; try reflexivity;
    destruct k as [|[|[|k]]]; reflexivity.
Qed.

Lemma write_failure_halts_sequential_witness :
  read_csv_chunked 1 [Parsed row_a; Parsed row_c; Parsed row_f]
  = inr (mkReader 1 [Parsed row_a; Parsed row_c; Parsed row_f] true)
  /\ batches (mkReader 1 [Parsed row_a; Parsed row_c; Parsed row_f] true)
     = [[row_a]] ++ [row_c] :: [[row_f]]
  /\ process_chunked first_column_line 1 [Parsed row_a; Parsed row_c; Parsed row_f]
       (mkSink [] (replicate (length [[row_a]]) None ++ Some 0 :: []))
     = (mkSink ([] ++ render_chunks first_column_line [[row_a]]
                ++ take 0 (render first_column_line (filtration [row_c]))) [],
        Raised OSError)
  /\ (forall df, read_csv [Parsed row_a; Parsed row_c; Parsed row_f] = inr df ->
        process_single_pass first_column_line [Parsed row_a; Parsed row_c; Parsed row_f]
          (mkSink [] (Some 0 :: []))
        = (mkSink ([] ++ take 0 (render first_column_line (filtration df))) [],
           Raised OSError)).
Proof.
  split; [reflexivity|]. split; [vm_compute; reflexivity|].
  apply (write_failure_halts_sequential first_column_line 1 0
           [Parsed row_a; Parsed row_c; Parsed row_f]
           (mkReader 1 [Parsed row_a; Parsed row_c; Parsed row_f] true)
           [[row_a]] [[row_f]] [row_c] [] []);
    [reflexivity | vm_compute; reflexivity].
Defined.

(** C5, counterexample.  With a bound of two batches in flight: three
    chunks are handed to the pool before any worker has taken one. *)
Lemma three_batches_in_flight :
  exists s0 s,
    start processes 1 [Parsed row_a; Parsed row_c; Parsed row_f] fresh = inr s0
    /\ run first_column_line [EvSubmit; EvSubmit; EvSubmit] s0 = Some s
    /\ workers s = [Idle; Idle; Idle]
    /\ length (tasks s) = 3
    /\ in_flight s = 3
    /\ ~ in_flight s <= 2.
Proof.
  eexists. eexists. split; [reflexivity|]. split; [vm_compute; reflexivity|].
  do 3 (split; [reflexivity|]). vm_compute. lia.
Qed.

Lemma no_backpressure_witness :
  start processes 1 [Parsed row_a; Parsed row_c; Parsed row_f] fresh
  = inr (mkPool (Submitting (mkReader 1 [Parsed row_a; Parsed row_c; Parsed row_f] true) 0)
                [] [Idle; Idle; Idle] false fresh)
  /\ exists s,
       run first_column_line
         (replicate (length (batches (mkReader 1 [Parsed row_a; Parsed row_c; Parsed row_f] true)))
                    EvSubmit)
         (mkPool (Submitting (mkReader 1 [Parsed row_a; Parsed row_c; Parsed row_f] true) 0)
                 [] [Idle; Idle; Idle] false fresh)
       = Some s
       /\ in_flight s
          = length (batches (mkReader 1 [Parsed row_a; Parsed row_c; Parsed row_f] true)).
Proof.
  split; [reflexivity|].
  apply (no_backpressure first_column_line processes 1
           [Parsed row_a; Parsed row_c; Parsed row_f] fresh _ eq_refl).
Defined.

(** In the middle of the second block: one worker writes, the lock is
    held, the first block is whole and the second is written in part. *)
Lemma sink_mutual_exclusion_witness :
  1 < 2
  /\ exists s0 s,
       start 2 1 [Parsed row_a; Parsed row_c] fresh = inr s0
       /\ run first_column_line (take 17 (two_writers 0 1 7 7)) s0 = Some s
       /\ writers s = 1
       /\ lock s = true
       /\ writers s <= 1
       /\ exists done pre,
            content (sink s) = content fresh ++ render_chunks first_column_line done ++ pre
            /\ done ++ unwritten s
               ≡ₚ batches (mkReader 1 [Parsed row_a; Parsed row_c] true)
            /\ progress_of first_column_line s pre.
Proof.
  split; [lia|]. eexists. eexists.
  split; [reflexivity|]. split; [vm_compute; reflexivity|].
  split; [reflexivity|]. split; [reflexivity|].
  match goal with |- writers ?s <= 1 /\ _ =>
    pose proof (sink_mutual_exclusion first_column_line 2 1
                  [Parsed row_a; Parsed row_c] fresh _
                  (take 17 (two_writers 0 1 7 7)) s ltac:(lia) eq_refl) as H
  end.
  destruct H as (H1 & _ & _ & H4); [vm_compute; reflexivity|].
  split; [exact H1 | exact (H4 eq_refl)].
Defined.

Lemma worker_count_independence_witness :
  faults fresh = []
  /\ start processes 2 (map Parsed [row_a; row_b; row_c; row_d; row_e]) fresh
     = inr (mkPool (Submitting (mkReader 2 (map Parsed [row_a; row_b; row_c; row_d; row_e]) true) 0)
                   [] [Idle; Idle; Idle] false fresh)
  /\ exists survivors,
       content (fst (process_chunked first_column_line 2
                       (map Parsed [row_a; row_b; row_c; row_d; row_e]) fresh))
       = content fresh ++ render first_column_line survivors
       /\ (forall rows, map Parsed [row_a; row_b; row_c; row_d; row_e] = map Parsed rows ->
             survivors = select keep rows)
       /\ (exists sched s,
             run first_column_line sched
               (mkPool (Submitting (mkReader 2 (map Parsed [row_a; row_b; row_c; row_d; row_e]) true) 0)
                       [] [Idle; Idle; Idle] false fresh) = Some s
             /\ finished s = true)
       /\ (forall sched s,
             run first_column_line sched
               (mkPool (Submitting (mkReader 2 (map Parsed [row_a; row_b; row_c; row_d; row_e]) true) 0)
                       [] [Idle; Idle; Idle] false fresh) = Some s ->
             finished s = true ->
             exists written,
               content (sink s) = content fresh ++ render first_column_line written
               /\ written ≡ₚ survivors).
Proof.
  split; [reflexivity|]. split; [reflexivity|].
  apply (worker_count_independence first_column_line processes 2
           (map Parsed [row_a; row_b; row_c; row_d; row_e]) fresh _ eq_refl eq_refl).
Defined.



(** ** Concrete runs for the further properties *)

Lemma chain_order_irrelevant_witness :
  chain ≡ₚ rev chain
  /\ apply_chain chain [row_a; row_b; row_c; row_d; row_e; row_f]
     = apply_chain (rev chain) [row_a; row_b; row_c; row_d; row_e; row_f].
Proof.
  split; [apply Permutation_rev|].
  apply (chain_order_irrelevant chain (rev chain)). apply Permutation_rev.
Defined.



Lemma pool_never_deadlocks_witness :
  faults fresh = []
  /\ exists s0 s,
       start 2 1 [Parsed row_a; Parsed row_c] fresh = inr s0
       /\ run first_column_line (take 17 (two_writers 0 1 7 7)) s0 = Some s
       /\ finished s = false
       /\ (finished s = false -> exists ev s', step first_column_line ev s = Some s')
       /\ (exists sched' s', run first_column_line sched' s = Some s' /\ finished s' = true).
Proof.
  split; [reflexivity|]. eexists. eexists.
  split; [reflexivity|]. split; [vm_compute; reflexivity|]. split; [reflexivity|].
  apply (pool_never_deadlocks first_column_line 2 1 [Parsed row_a; Parsed row_c] fresh _
           (take 17 (two_writers 0 1 7 7)) _ eq_refl eq_refl).
  vm_compute. reflexivity.
Defined.

(** Two batches with blocks of seven bytes: 1 + (4 + 7) + (4 + 7) actions. *)
Lemma pool_runs_are_bounded_witness :
  exists s0 s,
    start 2 1 [Parsed row_a; Parsed row_c] fresh = inr s0
    /\ run first_column_line (two_writers 0 1 7 7) s0 = Some s
    /\ finished s = true
    /\ length (two_writers 0 1 7 7) = 23
    /\ cost first_column_line s0
       = 1 + list_sum (map (fun chunk => 4 + length (render first_column_line (filtration chunk)))
                           (batches (mkReader 1 [Parsed row_a; Parsed row_c] true)))
    /\ length (two_writers 0 1 7 7) <= cost first_column_line s0
    /\ (faults fresh = [] -> finished s = true ->
        length (two_writers 0 1 7 7) = cost first_column_line s0).
Proof.
  eexists. eexists.
  split; [reflexivity|]. split; [vm_compute; reflexivity|].
  split; [reflexivity|]. split; [reflexivity|].
  apply (pool_runs_are_bounded first_column_line 2 1 [Parsed row_a; Parsed row_c] fresh _
           (two_writers 0 1 7 7) _ eq_refl).
  vm_compute. reflexivity.
Defined.

(** The first write raises while the second chunk is still to come: it is
    handed over and taken, and stays in flight. *)
Lemma failed_write_jams_pool_witness :
  exists s0 s s1 s',
    start processes 1 [Parsed row_a; Parsed row_c] (mkSink [] [Some 0]) = inr s0
    /\ run first_column_line [EvSubmit; EvTake 0; EvAcquire 0] s0 = Some s
    /\ step first_column_line (EvRaise 0) s = Some s1
    /\ run first_column_line [EvSubmit; EvTake 1; EvSubmit] s1 = Some s'
    /\ 0 < in_flight s1 + length (future (main s1))
    /\ lock s' = true
    /\ writers s' = 0
    /\ content (sink s') = content (sink s)
    /\ in_flight s' + length (future (main s')) = in_flight s1 + length (future (main s1))
    /\ (0 < in_flight s1 + length (future (main s1)) -> finished s' = false).
Proof.
  eexists. eexists. eexists. eexists.
  split; [reflexivity|]. split; [vm_compute; reflexivity|].
  split; [vm_compute; reflexivity|]. split; [vm_compute; reflexivity|].
  split; [vm_compute; lia|].
  eapply (failed_write_jams_pool first_column_line processes 1
            [Parsed row_a; Parsed row_c] (mkSink [] [Some 0]) _
            [EvSubmit; EvTake 0; EvAcquire 0] 0 _ _ [EvSubmit; EvTake 1; EvSubmit] _
            eq_refl);
    vm_compute; reflexivity.
Defined.

Lemma enumerate_numbers_batches_witness :
  exists s0 s,
    start 2 1 [Parsed row_a; Parsed row_c] fresh = inr s0
    /\ run first_column_line [EvSubmit; EvSubmit; EvTake 1] s0 = Some s
    /\ tasks s = [([row_c], 1)]
    /\ workers s = [Idle; Running [row_a] 0]
    /\ (forall chunk i, In (chunk, i) (tasks s) ->
          batches (mkReader 1 [Parsed row_a; Parsed row_c] true) !! i = Some chunk)
    /\ (forall k w chunk i, workers s !! k = Some w -> In (chunk, i) (task_of w) ->
          batches (mkReader 1 [Parsed row_a; Parsed row_c] true) !! i = Some chunk)
    /\ (forall rd i, main s = Submitting rd i ->
          drop i (batches (mkReader 1 [Parsed row_a; Parsed row_c] true)) = batches rd).
Proof.
  eexists. eexists.
  split; [reflexivity|]. split; [vm_compute; reflexivity|].
  split; [reflexivity|]. split; [reflexivity|].
  apply (enumerate_numbers_batches first_column_line 2 1 [Parsed row_a; Parsed row_c]
           fresh _ [EvSubmit; EvSubmit; EvTake 1] _ eq_refl).
  vm_compute. reflexivity.
Defined.

Lemma single_worker_is_sequential_witness :
  faults fresh = []
  /\ exists s0 s,
       start 1 1 [Parsed row_a; Parsed row_c] fresh = inr s0
       /\ run first_column_line (one_writer 7 7) s0 = Some s
       /\ finished s = true
       /\ content (sink s) = first_column_line row_a ++ first_column_line row_c
       /\ (finished s = true ->
           content (sink s)
           = content (fst (process_chunked first_column_line 1
                             [Parsed row_a; Parsed row_c] fresh))).
Proof.
  split; [reflexivity|]. eexists. eexists.
  split; [reflexivity|]. split; [vm_compute; reflexivity|].
  split; [reflexivity|]. split; [vm_compute; reflexivity|].
  apply (single_worker_is_sequential first_column_line 1 [Parsed row_a; Parsed row_c]
           fresh _ (one_writer 7 7) _ eq_refl eq_refl).
  vm_compute. reflexivity.
Defined.
